(** * Portable atomic operations and bit utilities of Mt-KaHyPar

    Shallow embedding of [mt-kahypar/utils/atomic_ops.h] (both preprocessor
    branches: the MSVC one built on [_Interlocked*] and the GCC/Clang one
    built on [__atomic_*]) and of the bit utilities [popcount_64],
    [lowest_set_bit_64], [log2] and [is_power_of_2].

    Conventions.
    - A value type [T] of the templates is an integral type: a width class
      (1, 2, 4 or 8 bytes) and a signedness.  A value of type [T] is the
      integer of [Z] it denotes; conversions ([static_cast]) wrap modulo
      [2^(8w)] in two's complement.
    - An atomic location is one object of [w] bytes.  The memory holds its
      object representation: the bit pattern, an integer in [0, 2^(8w)).
      Reading it through a pointer to some integral type of the same width
      (the [reinterpret_cast]s of the MSVC branch) decodes the same bits.
    - Every operation is a state transformer on that single location; the
      compiler barriers issued by the MSVC branch are counted in the state.
      The model is sequential: it describes the value returned and the value
      left in memory by one operation, not the inter-thread ordering.
    - Where the language gives an expression no defined result (a signed
      overflow, a bit scan of zero) the model has none either: [None]. *)

From Stdlib Require Import ZArith Bool List Lia FinFun.
From Equations Require Import Equations.
Import ListNotations.

Local Open Scope Z_scope.

(** ** Integral types *)

(** [sizeof(T)] for the four width classes the dispatch distinguishes. *)
Inductive Width : Set := W1 | W2 | W4 | W8.

Definition sizeof (w : Width) : Z :=
  match w with W1 => 1 | W2 => 2 | W4 => 4 | W8 => 8 end.

Definition bits (w : Width) : Z := 8 * sizeof w.

Definition modulus (w : Width) : Z := 2 ^ bits w.

Definition half_modulus (w : Width) : Z := 2 ^ (bits w - 1).

Record IntType : Set := mkIntType { width : Width; is_signed : bool }.

(** The types the MSVC intrinsics are declared on (LLP64: [long] is 32 bits). *)
Definition char_t : IntType := mkIntType W1 true.
Definition short_t : IntType := mkIntType W2 true.
Definition long_t : IntType := mkIntType W4 true.
Definition long_long_t : IntType := mkIntType W8 true.
Definition int_t : IntType := mkIntType W4 true.
Definition uint8_t : IntType := mkIntType W1 false.
Definition int16_t : IntType := mkIntType W2 true.
Definition uint32_t : IntType := mkIntType W4 false.
Definition uint64_t : IntType := mkIntType W8 false.

(** [std::make_signed_t<T>]. *)
Definition make_signed_t (T : IntType) : IntType := mkIntType (width T) true.

Definition min_value (T : IntType) : Z :=
  if is_signed T then - half_modulus (width T) else 0.

Definition max_value (T : IntType) : Z :=
  if is_signed T then half_modulus (width T) - 1 else modulus (width T) - 1.

(** [v] is a value of type [T]. *)
Definition in_range (T : IntType) (v : Z) : Prop :=
  min_value T <= v <= max_value T.

Definition in_rangeb (T : IntType) (v : Z) : bool :=
  (min_value T <=? v) && (v <=? max_value T).

(** Object representation of an integer at width [w]: its low [8w] bits. *)
Definition to_bits (w : Width) (z : Z) : Z := z mod modulus w.

(** [b] is a bit pattern of width [w]. *)
Definition is_bits (w : Width) (b : Z) : Prop := 0 <= b < modulus w.

(** [static_cast<T>(z)]: the value of type [T] congruent to [z] modulo
    [2^(8w)].  Decoding a bit pattern at type [T] is the same function. *)
Definition static_cast (T : IntType) (z : Z) : Z :=
  if is_signed T
  then (z + half_modulus (width T)) mod modulus (width T) - half_modulus (width T)
  else z mod modulus (width T).

(** Integral promotion: operands narrower than [int] are computed in [int]. *)
Definition promote (T : IntType) : IntType :=
  match width T with
  | W1 | W2 => int_t
  | _ => T
  end.

(** ** The ordering enumeration *)

Inductive MemoryOrder : Set := Relaxed | Acquire | Release | AcqRel | SeqCst.

Definition MemoryOrder_eqb (a b : MemoryOrder) : bool :=
  match a, b with
  | Relaxed, Relaxed | Acquire, Acquire | Release, Release
  | AcqRel, AcqRel | SeqCst, SeqCst => true
  | _, _ => false
  end.

(** ** Memory and the state monad of one atomic location *)

Record Mem : Set := mkMem {
  cell : Z;          (* bit pattern of the atomic object *)
  barriers : nat     (* compiler barriers issued so far *)
}.

Definition M (A : Type) : Type := Mem -> A * Mem.

Definition ret {A} (a : A) : M A := fun m => (a, m).

Definition bind {A B} (c : M A) (k : A -> M B) : M B :=
  fun m => let (a, m') := c m in k a m'.

Notation "x <- c ;; k" := (bind c (fun x => k))
  (at level 61, c at next level, right associativity).
Notation "c ;;; k" := (bind c (fun _ => k))
  (at level 61, right associativity).

(** Read the object through a pointer to [T]. *)
Definition read (T : IntType) : M Z := fun m => (static_cast T (cell m), m).

(** Write a value through a pointer to an integral type of width [w]. *)
Definition write (w : Width) (v : Z) : M unit :=
  fun m => (tt, mkMem (to_bits w v) (barriers m)).

(** When [cond] holds run [c], otherwise do nothing. *)
Definition when (cond : bool) (c : M unit) : M unit :=
  if cond then c else ret tt.

(** A call that may have no defined result: [None] in that case. *)
Definition Undef (A : Type) : Type := Mem -> option (A * Mem).

(** A call whose result is always defined. *)
Definition defined {A} (c : M A) : Undef A := fun m => Some (c m).

(** ** Toolchain primitives

    The intrinsics are supplied by the compilers, not by the repository.
    They are given here by their documented effect on one location: each
    [_Interlocked*] intrinsic works on the signed type of its width and
    returns the initial value of the destination; each [__atomic_*] builtin
    is generic in the pointed-to type and takes the ordering as an [int]. *)

Module Intrin.

(** [_ReadWriteBarrier()]: a compiler barrier, no effect on the value. *)
Definition _ReadWriteBarrier : M unit :=
  fun m => (tt, mkMem (cell m) (S (barriers m))).

Definition InterlockedOr (Ty : IntType) (mask : Z) : M Z :=
  old <- read Ty ;; write (width Ty) (Z.lor old mask) ;;; ret old.

Definition InterlockedExchange (Ty : IntType) (value : Z) : M Z :=
  old <- read Ty ;; write (width Ty) value ;;; ret old.

Definition InterlockedExchangeAdd (Ty : IntType) (value : Z) : M Z :=
  old <- read Ty ;; write (width Ty) (old + value) ;;; ret old.

Definition InterlockedXor (Ty : IntType) (mask : Z) : M Z :=
  old <- read Ty ;; write (width Ty) (Z.lxor old mask) ;;; ret old.

(** Argument order of the intrinsic: destination, exchange, comparand. *)
Definition InterlockedCompareExchange (Ty : IntType) (exchange comparand : Z)
  : M Z :=
  old <- read Ty ;;
  when (old =? comparand) (write (width Ty) exchange) ;;;
  ret old.

Definition _InterlockedOr8 := InterlockedOr char_t.
Definition _InterlockedOr16 := InterlockedOr short_t.
Definition _InterlockedOr := InterlockedOr long_t.
Definition _InterlockedOr64 := InterlockedOr long_long_t.

Definition _InterlockedExchange8 := InterlockedExchange char_t.
Definition _InterlockedExchange16 := InterlockedExchange short_t.
Definition _InterlockedExchange := InterlockedExchange long_t.
Definition _InterlockedExchange64 := InterlockedExchange long_long_t.

Definition _InterlockedExchangeAdd8 := InterlockedExchangeAdd char_t.
Definition _InterlockedExchangeAdd16 := InterlockedExchangeAdd short_t.
Definition _InterlockedExchangeAdd := InterlockedExchangeAdd long_t.
Definition _InterlockedExchangeAdd64 := InterlockedExchangeAdd long_long_t.

Definition _InterlockedXor8 := InterlockedXor char_t.
Definition _InterlockedXor16 := InterlockedXor short_t.
Definition _InterlockedXor := InterlockedXor long_t.
Definition _InterlockedXor64 := InterlockedXor long_long_t.

Definition _InterlockedCompareExchange8 := InterlockedCompareExchange char_t.
Definition _InterlockedCompareExchange16 := InterlockedCompareExchange short_t.
Definition _InterlockedCompareExchange := InterlockedCompareExchange long_t.
Definition _InterlockedCompareExchange64 :=
  InterlockedCompareExchange long_long_t.

End Intrin.

(** The ordering constants: predefined by GCC/Clang, [#define]d by the
    compatibility section of the header under MSVC, with the same values. *)
Definition __ATOMIC_RELAXED : Z := 0.
Definition __ATOMIC_CONSUME : Z := 1.
Definition __ATOMIC_ACQUIRE : Z := 2.
Definition __ATOMIC_RELEASE : Z := 3.
Definition __ATOMIC_ACQ_REL : Z := 4.
Definition __ATOMIC_SEQ_CST : Z := 5.

Module Builtin.

Definition __atomic_load_n (T : IntType) (memorder : Z) : M Z := read T.

Definition __atomic_store_n (T : IntType) (val : Z) (memorder : Z) : M unit :=
  write (width T) val.

Definition __atomic_exchange_n (T : IntType) (val : Z) (memorder : Z) : M Z :=
  old <- read T ;; write (width T) val ;;; ret old.

Definition __atomic_fetch_add (T : IntType) (val : Z) (memorder : Z) : M Z :=
  old <- read T ;; write (width T) (old + val) ;;; ret old.

Definition __atomic_fetch_sub (T : IntType) (val : Z) (memorder : Z) : M Z :=
  old <- read T ;; write (width T) (old - val) ;;; ret old.

Definition __atomic_xor_fetch (T : IntType) (val : Z) (memorder : Z) : M Z :=
  old <- read T ;;
  let new := static_cast T (Z.lxor old val) in
  write (width T) new ;;; ret new.

(** The generic form: [expected] and [desired] are passed by address.  The
    result pairs the returned flag with the final contents of [*expected].
    This is the strong form, [weak = false], the only one the header calls;
    the spurious failures the builtin is allowed when [weak] is true are
    not described, and no statement below uses it with [weak = true]. *)
Definition __atomic_compare_exchange (T : IntType) (expected desired : Z)
    (weak : bool) (success_memorder failure_memorder : Z) : M (bool * Z) :=
  cur <- read T ;;
  if cur =? expected
  then write (width T) desired ;;; ret (true, expected)
  else ret (false, cur).

End Builtin.

(** ** [namespace detail], MSVC branch *)

Module Msvc.
Import Intrin.

(** The test guarding the barrier after a load. *)
Definition has_acquire (order : MemoryOrder) : bool :=
  MemoryOrder_eqb order Acquire || MemoryOrder_eqb order SeqCst
  || MemoryOrder_eqb order AcqRel.

(** The test guarding the barrier before a store or an exchange. *)
Definition has_release (order : MemoryOrder) : bool :=
  MemoryOrder_eqb order Release || MemoryOrder_eqb order SeqCst
  || MemoryOrder_eqb order AcqRel.

Definition atomic_load (T : IntType) (order : MemoryOrder) : M Z :=
  value <- match width T with
           | W1 => r <- _InterlockedOr8 0 ;; ret (static_cast T r)
           | W2 => r <- _InterlockedOr16 0 ;; ret (static_cast T r)
           | W4 => r <- _InterlockedOr 0 ;; ret (static_cast T r)
           | W8 => r <- _InterlockedOr64 0 ;; ret (static_cast T r)
           end ;;
  when (has_acquire order) _ReadWriteBarrier ;;;
  ret value.

Definition atomic_store (T : IntType) (value : Z) (order : MemoryOrder)
  : M unit :=
  when (has_release order) _ReadWriteBarrier ;;;
  match width T with
  | W1 => _InterlockedExchange8 (static_cast char_t value) ;;; ret tt
  | W2 => _InterlockedExchange16 (static_cast short_t value) ;;; ret tt
  | W4 => _InterlockedExchange (static_cast long_t value) ;;; ret tt
  | W8 => _InterlockedExchange64 (static_cast long_long_t value) ;;; ret tt
  end.

Definition atomic_exchange (T : IntType) (value : Z) (order : MemoryOrder)
  : M Z :=
  when (has_release order) _ReadWriteBarrier ;;;
  old_val <- match width T with
             | W1 => r <- _InterlockedExchange8 (static_cast char_t value) ;;
                     ret (static_cast T r)
             | W2 => r <- _InterlockedExchange16 (static_cast short_t value) ;;
                     ret (static_cast T r)
             | W4 => r <- _InterlockedExchange (static_cast long_t value) ;;
                     ret (static_cast T r)
             | W8 => r <- _InterlockedExchange64 (static_cast long_long_t value) ;;
                     ret (static_cast T r)
             end ;;
  ret old_val.

Definition atomic_fetch_add (T : IntType) (value : Z) (order : MemoryOrder)
  : M Z :=
  match width T with
  | W1 => r <- _InterlockedExchangeAdd8 (static_cast char_t value) ;;
          ret (static_cast T r)
  | W2 => r <- _InterlockedExchangeAdd16 (static_cast short_t value) ;;
          ret (static_cast T r)
  | W4 => r <- _InterlockedExchangeAdd (static_cast long_t value) ;;
          ret (static_cast T r)
  | W8 => r <- _InterlockedExchangeAdd64 (static_cast long_long_t value) ;;
          ret (static_cast T r)
  end.

(** Unary minus on an operand of type [Ty]: computed in the promoted type.
    Where the mathematical result is not representable there (the operand
    is the minimum of a 4- or 8-byte signed type) the negation is a signed
    overflow and has no defined result. *)
Definition negate (Ty : IntType) (x : Z) : option Z :=
  if in_rangeb (promote Ty) (- x) then Some (- x) else None.

Definition atomic_fetch_sub (T : IntType) (value : Z) (order : MemoryOrder)
  : Undef Z :=
  match negate (make_signed_t T) (static_cast (make_signed_t T) value) with
  | Some negated => defined (atomic_fetch_add T (static_cast T negated) order)
  | None => fun _ => None
  end.

(** [a ^ b] on operands of type [Ty]: computed in the promoted type. *)
Definition bit_xor (Ty : IntType) (a b : Z) : Z :=
  static_cast (promote Ty) (Z.lxor a b).

Definition atomic_xor_fetch (T : IntType) (value : Z) (order : MemoryOrder)
  : M Z :=
  old_val <- match width T with
             | W1 => r <- _InterlockedXor8 (static_cast char_t value) ;;
                     ret (static_cast T r)
             | W2 => r <- _InterlockedXor16 (static_cast short_t value) ;;
                     ret (static_cast T r)
             | W4 => r <- _InterlockedXor (static_cast long_t value) ;;
                     ret (static_cast T r)
             | W8 => r <- _InterlockedXor64 (static_cast long_long_t value) ;;
                     ret (static_cast T r)
             end ;;
  ret (static_cast T (bit_xor T old_val value)).

(** [expected] is the contents of [*expected] on entry; the result pairs the
    returned flag with the contents of [*expected] on exit. *)
Definition atomic_compare_exchange (T : IntType) (expected desired : Z)
    (success_order failure_order : MemoryOrder) : M (bool * Z) :=
  old_val <- match width T with
             | W1 => r <- _InterlockedCompareExchange8
                            (static_cast char_t desired)
                            (static_cast char_t expected) ;;
                     ret (static_cast T r)
             | W2 => r <- _InterlockedCompareExchange16
                            (static_cast short_t desired)
                            (static_cast short_t expected) ;;
                     ret (static_cast T r)
             | W4 => r <- _InterlockedCompareExchange
                            (static_cast long_t desired)
                            (static_cast long_t expected) ;;
                     ret (static_cast T r)
             | W8 => r <- _InterlockedCompareExchange64
                            (static_cast long_long_t desired)
                            (static_cast long_long_t expected) ;;
                     ret (static_cast T r)
             end ;;
  if old_val =? expected
  then ret (true, expected)
  else ret (false, old_val).

End Msvc.

(** ** [namespace detail], GCC/Clang branch *)

Module Gcc.
Import Builtin.

Definition to_gcc_order (order : MemoryOrder) : Z :=
  match order with
  | Relaxed => __ATOMIC_RELAXED
  | Acquire => __ATOMIC_ACQUIRE
  | Release => __ATOMIC_RELEASE
  | AcqRel => __ATOMIC_ACQ_REL
  | SeqCst => __ATOMIC_SEQ_CST
  end.

Definition atomic_load (T : IntType) (order : MemoryOrder) : M Z :=
  __atomic_load_n T (to_gcc_order order).

Definition atomic_store (T : IntType) (value : Z) (order : MemoryOrder)
  : M unit :=
  __atomic_store_n T value (to_gcc_order order).

Definition atomic_exchange (T : IntType) (value : Z) (order : MemoryOrder)
  : M Z :=
  __atomic_exchange_n T value (to_gcc_order order).

Definition atomic_fetch_add (T : IntType) (value : Z) (order : MemoryOrder)
  : M Z :=
  __atomic_fetch_add T value (to_gcc_order order).

Definition atomic_fetch_sub (T : IntType) (value : Z) (order : MemoryOrder)
  : M Z :=
  __atomic_fetch_sub T value (to_gcc_order order).

Definition atomic_xor_fetch (T : IntType) (value : Z) (order : MemoryOrder)
  : M Z :=
  __atomic_xor_fetch T value (to_gcc_order order).

Definition atomic_compare_exchange (T : IntType) (expected desired : Z)
    (success_order failure_order : MemoryOrder) : M (bool * Z) :=
  __atomic_compare_exchange T expected desired false
    (to_gcc_order success_order) (to_gcc_order failure_order).

End Gcc.

(** ** Public API

    Exactly one of the two [detail] branches is compiled in; the toolchain is
    a parameter of the model ([#ifdef _MSC_VER]). *)

Inductive Toolchain : Set := MSVC | GCC.

Definition mtk_atomic_load (tc : Toolchain) (T : IntType) (order : MemoryOrder)
  : M Z :=
  match tc with
  | MSVC => Msvc.atomic_load T order
  | GCC => Gcc.atomic_load T order
  end.

Definition mtk_atomic_store (tc : Toolchain) (T : IntType) (value : Z)
    (order : MemoryOrder) : M unit :=
  match tc with
  | MSVC => Msvc.atomic_store T value order
  | GCC => Gcc.atomic_store T value order
  end.

Definition mtk_atomic_exchange (tc : Toolchain) (T : IntType) (value : Z)
    (order : MemoryOrder) : M Z :=
  match tc with
  | MSVC => Msvc.atomic_exchange T value order
  | GCC => Gcc.atomic_exchange T value order
  end.

Definition mtk_atomic_fetch_add (tc : Toolchain) (T : IntType) (value : Z)
    (order : MemoryOrder) : M Z :=
  match tc with
  | MSVC => Msvc.atomic_fetch_add T value order
  | GCC => Gcc.atomic_fetch_add T value order
  end.

Definition mtk_atomic_fetch_sub (tc : Toolchain) (T : IntType) (value : Z)
    (order : MemoryOrder) : Undef Z :=
  match tc with
  | MSVC => Msvc.atomic_fetch_sub T value order
  | GCC => defined (Gcc.atomic_fetch_sub T value order)
  end.

Definition mtk_atomic_xor_fetch (tc : Toolchain) (T : IntType) (value : Z)
    (order : MemoryOrder) : M Z :=
  match tc with
  | MSVC => Msvc.atomic_xor_fetch T value order
  | GCC => Gcc.atomic_xor_fetch T value order
  end.

Definition mtk_atomic_compare_exchange (tc : Toolchain) (T : IntType)
    (expected desired : Z) (success_order failure_order : MemoryOrder)
  : M (bool * Z) :=
  match tc with
  | MSVC => Msvc.atomic_compare_exchange T expected desired
              success_order failure_order
  | GCC => Gcc.atomic_compare_exchange T expected desired
             success_order failure_order
  end.

(** [expected] is passed by value: the updated copy is dropped. *)
Definition mtk_atomic_compare_exchange_n (tc : Toolchain) (T : IntType)
    (expected desired : Z) (success_order failure_order : MemoryOrder)
  : M bool :=
  r <- mtk_atomic_compare_exchange tc T expected desired
         success_order failure_order ;;
  ret (fst r).

(** ** GCC-builtin compatibility section (compiled under MSVC only) *)

Definition mtk_map_gcc_order (order : Z) : MemoryOrder :=
  if order =? __ATOMIC_RELAXED then Relaxed
  else if order =? __ATOMIC_ACQUIRE then Acquire
  else if order =? __ATOMIC_RELEASE then Release
  else if order =? __ATOMIC_ACQ_REL then AcqRel
  else if order =? __ATOMIC_SEQ_CST then SeqCst
  else SeqCst.

Module Compat.

Definition __atomic_fetch_add (T : IntType) (val : Z) (memorder : Z) : M Z :=
  mtk_atomic_fetch_add MSVC T (static_cast T val) (mtk_map_gcc_order memorder).

Definition __atomic_fetch_sub (T : IntType) (val : Z) (memorder : Z)
  : Undef Z :=
  mtk_atomic_fetch_sub MSVC T (static_cast T val) (mtk_map_gcc_order memorder).

Definition __atomic_exchange_n (T : IntType) (val : Z) (memorder : Z) : M Z :=
  mtk_atomic_exchange MSVC T (static_cast T val) (mtk_map_gcc_order memorder).

Definition __atomic_compare_exchange_n (T : IntType) (expected desired : Z)
    (weak : bool) (success_order failure_order : Z) : M (bool * Z) :=
  mtk_atomic_compare_exchange MSVC T expected (static_cast T desired)
    (mtk_map_gcc_order success_order) (mtk_map_gcc_order failure_order).

End Compat.

(** ** Bit utilities ([namespace mt_kahypar::utils]) *)

(** Index of the first set bit among the [n] positions starting at [i]. *)
Fixpoint scan_forward (n : nat) (i : Z) (x : Z) : option Z :=
  match n with
  | O => None
  | S n' => if Z.testbit x i then Some i else scan_forward n' (i + 1) x
  end.

(** [_BitScanForward64(&index, mask)].  [Some i]: the intrinsic returns
    nonzero and writes [i] to [index]; [None]: the mask is zero, it returns
    zero and [index] is not meaningful. *)
Definition _BitScanForward64 (mask : Z) : option Z := scan_forward 64 0 mask.

(** [__builtin_ctzll(x)]: the number of trailing zero bits.  The builtin has
    no defined result for zero: [None]. *)
Definition __builtin_ctzll (x : Z) : option Z :=
  if x =? 0 then None else scan_forward 64 0 x.

(** The result is [None] where the code has no defined result. *)
Definition lowest_set_bit_64 (tc : Toolchain) (x : Z) : option Z :=
  match tc with
  | MSVC =>
      match _BitScanForward64 x with
      | Some index => Some (static_cast int_t index)
      | None => Some 64
      end
  | GCC => __builtin_ctzll x
  end.

(** Number of binary digits of a positive integer, 0 otherwise: the measure
    that decreases along [x >> 1]. *)
Definition bit_length (x : Z) : nat :=
  match x with
  | Zpos p => Pos.size_nat p
  | _ => O
  end.

(** [constexpr int log2(const int x)]; [x >> 1] is [Z.shiftr x 1]. *)
Equations? log2 (x : Z) : Z by wf (bit_length x) lt :=
  log2 x with Z_le_gt_dec x 1 => {
    | left _ := 0;
    | right _ := 1 + log2 (Z.shiftr x 1) }.
Proof.
  destruct x as [| p | p]; try lia.
  destruct p as [q | q |]; try lia; cbn; lia.
Qed.

(** The same function with the depth of the call stack bounded by [depth]:
    [None] when the bound would be exceeded. *)
Fixpoint log2_within (depth : nat) (x : Z) : option Z :=
  match depth with
  | O => None
  | S d =>
      if x <=? 1 then Some 0
      else option_map (Z.add 1) (log2_within d (Z.shiftr x 1))
  end.

(** [x - 1] is computed on [uint64_t]. *)
Definition is_power_of_2 (x : Z) : bool :=
  negb (x =? 0)
  && (Z.land x (static_cast uint64_t (x - 1)) =? 0).

(** ** Vocabulary of the statements *)

(** The memory in which the location holds the value [v] of type [T], after
    [n] compiler barriers. *)
Definition location (T : IntType) (v : Z) (n : nat) : Mem :=
  mkMem (to_bits (width T) v) n.

(** The seven operations with their operands. *)
Inductive Op : Set :=
| OpLoad
| OpStore (value : Z)
| OpExchange (value : Z)
| OpFetchAdd (value : Z)
| OpFetchSub (value : Z)
| OpXorFetch (value : Z)
| OpCompareExchange (expected desired : Z).

(** What the caller gets back: nothing, a value, or the flag of a
    compare-exchange with the final contents of [*expected]. *)
Inductive Result : Set :=
| RVoid
| RValue (v : Z)
| RFlag (success : bool) (expected : Z).

Definition run_op (tc : Toolchain) (T : IntType) (op : Op)
    (order failure_order : MemoryOrder) : Undef Result :=
  match op with
  | OpLoad => defined (v <- mtk_atomic_load tc T order ;; ret (RValue v))
  | OpStore value =>
      defined (mtk_atomic_store tc T value order ;;; ret RVoid)
  | OpExchange value =>
      defined (v <- mtk_atomic_exchange tc T value order ;; ret (RValue v))
  | OpFetchAdd value =>
      defined (v <- mtk_atomic_fetch_add tc T value order ;; ret (RValue v))
  | OpFetchSub value =>
      fun m =>
        match mtk_atomic_fetch_sub tc T value order m with
        | Some (v, m') => Some (RValue v, m')
        | None => None
        end
  | OpXorFetch value =>
      defined (v <- mtk_atomic_xor_fetch tc T value order ;; ret (RValue v))
  | OpCompareExchange expected desired =>
      defined (r <- mtk_atomic_compare_exchange tc T expected desired
                      order failure_order ;;
               ret (RFlag (fst r) (snd r)))
  end.

(** The operands of [op] are values of type [T]. *)
Definition operands_in_range (T : IntType) (op : Op) : Prop :=
  match op with
  | OpLoad => True
  | OpStore v | OpExchange v | OpFetchAdd v | OpFetchSub v | OpXorFetch v =>
      in_range T v
  | OpCompareExchange expected desired =>
      in_range T expected /\ in_range T desired
  end.

(** What an observer of the call sees: the result and the location. *)
Definition observe {A} (r : A * Mem) : A * Z := (fst r, cell (snd r)).

(** The same for a call that may have no defined result. *)
Definition observe_outcome {A} (r : option (A * Mem)) : option (A * Z) :=
  option_map observe r.

(** The operands at which the MSVC [atomic_fetch_sub] negates the minimum
    of a 4- or 8-byte signed type: [value] seen through [make_signed_t<T>]
    is that minimum (for an unsigned [T] these are [2^31] and [2^63]). *)
Definition negation_overflows (T : IntType) (value : Z) : bool :=
  match width T with
  | W4 | W8 =>
      static_cast (make_signed_t T) value =? min_value (make_signed_t T)
  | _ => false
  end.

(** Whether [mtk_atomic_fetch_sub] has a defined result at [value]. *)
Definition fetch_sub_defined (tc : Toolchain) (T : IntType) (value : Z)
  : bool :=
  match tc with
  | MSVC => negb (negation_overflows T value)
  | GCC => true
  end.

(** ** Population count *)

(** Number of set bits among the [n] positions starting at [i]. *)
Fixpoint count_bits (n : nat) (i : Z) (x : Z) : Z :=
  match n with
  | O => 0
  | S n' => (if Z.testbit x i then 1 else 0) + count_bits n' (i + 1) x
  end.

(** [__popcnt64(x)], of result type [unsigned __int64]. *)
Definition __popcnt64 (x : Z) : Z := count_bits 64 0 x.

(** [__builtin_popcountll(x)], of result type [int]. *)
Definition __builtin_popcountll (x : Z) : Z := count_bits 64 0 x.

Definition popcount_64 (tc : Toolchain) (x : Z) : Z :=
  match tc with
  | MSVC => static_cast int_t (__popcnt64 x)
  | GCC => __builtin_popcountll x
  end.

(** ** Sequences of calls *)

(** [k] successive calls of [mtk_atomic_fetch_add] with the same operand, in
    the order in which the location serves them; the results are collected
    in call order. *)
Fixpoint fetch_add_calls (tc : Toolchain) (T : IntType) (delta : Z)
    (order : MemoryOrder) (k : nat) : M (list Z) :=
  match k with
  | O => ret []
  | S k' =>
      r <- mtk_atomic_fetch_add tc T delta order ;;
      rs <- fetch_add_calls tc T delta order k' ;;
      ret (r :: rs)
  end.

(** * Properties *)

(** ** Wrap-around arithmetic *)

Lemma modulus_values (w : Width) :
  modulus w = match w with
              | W1 => 256 | W2 => 65536 | W4 => 4294967296
              | W8 => 18446744073709551616
              end.
Proof. destruct w; reflexivity. Qed.

Lemma half_modulus_values (w : Width) :
  half_modulus w = match w with
                   | W1 => 128 | W2 => 32768 | W4 => 2147483648
                   | W8 => 9223372036854775808
                   end.
Proof. destruct w; reflexivity. Qed.

Ltac unfold_types :=
  unfold in_range, is_bits, min_value, max_value, static_cast, to_bits,
    make_signed_t, promote, char_t, short_t, long_t, long_long_t, int_t,
    uint8_t, int16_t, uint32_t, uint64_t in *;
  cbn [width is_signed] in *;
  rewrite ?modulus_values, ?half_modulus_values in *.

(** Case analysis on the type, then linear arithmetic on quotients and
    remainders of the concrete modulus. *)
Ltac solve_wrap T :=
  destruct T as [[] []]; unfold_types;
  Z.div_mod_to_equations; lia.

Lemma static_cast_id (T : IntType) (v : Z) :
  in_range T v -> static_cast T v = v.
Proof. intros H. solve_wrap T. Qed.

Lemma static_cast_in_range (T : IntType) (z : Z) :
  in_range T (static_cast T z).
Proof. solve_wrap T. Qed.

Lemma to_bits_is_bits (w : Width) (z : Z) : is_bits w (to_bits w z).
Proof. destruct w; unfold_types; Z.div_mod_to_equations; lia. Qed.

(** Conversions between integral types of one width keep the bit pattern. *)
Lemma to_bits_static_cast (T : IntType) (w : Width) (z : Z) :
  width T = w -> to_bits w (static_cast T z) = to_bits w z.
Proof. intros <-. solve_wrap T. Qed.

Lemma static_cast_to_bits (T : IntType) (w : Width) (z : Z) :
  width T = w -> static_cast T (to_bits w z) = static_cast T z.
Proof. intros <-. solve_wrap T. Qed.

Lemma static_cast_congr (T : IntType) (a b : Z) :
  to_bits (width T) a = to_bits (width T) b ->
  static_cast T a = static_cast T b.
Proof. intros H. solve_wrap T. Qed.

Lemma static_cast_same_width (T U : IntType) (z : Z) :
  width T = width U -> static_cast T (static_cast U z) = static_cast T z.
Proof.
  intros H. apply static_cast_congr. now apply to_bits_static_cast.
Qed.

(** The bit pattern after an addition depends on the operands only through
    their bit patterns. *)
Lemma to_bits_add_congr (w : Width) (a a' b b' : Z) :
  to_bits w a = to_bits w a' -> to_bits w b = to_bits w b' ->
  to_bits w (a + b) = to_bits w (a' + b').
Proof.
  unfold to_bits. intros Ha Hb.
  rewrite (Z.add_mod a b), (Z.add_mod a' b'), Ha, Hb
    by (rewrite modulus_values; destruct w; lia).
  reflexivity.
Qed.

Lemma to_bits_opp_congr (w : Width) (a b : Z) :
  to_bits w a = to_bits w b -> to_bits w (- a) = to_bits w (- b).
Proof.
  intros H. destruct w; unfold_types; Z.div_mod_to_equations; lia.
Qed.

(** ** Exclusive or on wrapped integers *)

Lemma lxor_mod_pow2 (a b k : Z) :
  0 <= k -> Z.lxor a b mod 2 ^ k = Z.lxor (a mod 2 ^ k) (b mod 2 ^ k).
Proof.
  intros Hk. apply Z.bits_inj'. intros i Hi.
  rewrite Z.lxor_spec, !Z.testbit_mod_pow2, Z.lxor_spec by assumption.
  destruct (i <? k); reflexivity.
Qed.

Lemma lxor_bound (a b k : Z) :
  0 <= k -> 0 <= a < 2 ^ k -> 0 <= b < 2 ^ k -> 0 <= Z.lxor a b < 2 ^ k.
Proof.
  intros Hk Ha Hb.
  assert (E : Z.lxor a b = Z.lxor a b mod 2 ^ k).
  { rewrite lxor_mod_pow2 by assumption.
    now rewrite (Z.mod_small a), (Z.mod_small b). }
  rewrite E. apply Z.mod_pos_bound. lia.
Qed.

(** Two's complement: the sign cases reduce to the non-negative one through
    the complement [Z.lnot x = - x - 1]. *)
Lemma lxor_signed_bound (a b k : Z) :
  0 <= k -> - 2 ^ k <= a < 2 ^ k -> - 2 ^ k <= b < 2 ^ k ->
  - 2 ^ k <= Z.lxor a b < 2 ^ k.
Proof.
  intros Hk Ha Hb.
  assert (Hn : forall x, - 2 ^ k <= x < 0 -> 0 <= Z.lnot x < 2 ^ k)
    by (intros x Hx; unfold Z.lnot; lia).
  destruct (Z.neg_nonneg_cases a) as [Na | Pa];
    destruct (Z.neg_nonneg_cases b) as [Nb | Pb].
  - rewrite <- Z.lxor_lnot_lnot.
    pose proof (lxor_bound _ _ k Hk (Hn a ltac:(lia)) (Hn b ltac:(lia))). lia.
  - pose proof (lxor_bound _ _ k Hk (Hn a ltac:(lia)) (conj Pb (proj2 Hb))) as B.
    rewrite <- Z.lnot_lxor_l in B. unfold Z.lnot in B. lia.
  - pose proof (lxor_bound _ _ k Hk (conj Pa (proj2 Ha)) (Hn b ltac:(lia))) as B.
    rewrite <- Z.lnot_lxor_r in B. unfold Z.lnot in B. lia.
  - pose proof (lxor_bound a b k Hk (conj Pa (proj2 Ha)) (conj Pb (proj2 Hb))). lia.
Qed.

Lemma in_range_lxor (T : IntType) (a b : Z) :
  in_range T a -> in_range T b -> in_range T (Z.lxor a b).
Proof.
  unfold in_range, min_value, max_value, modulus, half_modulus.
  destruct T as [w [|]]; cbn [width is_signed]; intros Ha Hb.
  - assert (Hk : 0 <= bits w - 1) by (destruct w; cbn; lia).
    pose proof (lxor_signed_bound a b (bits w - 1) Hk). lia.
  - assert (Hk : 0 <= bits w) by (destruct w; cbn; lia).
    pose proof (lxor_bound a b (bits w) Hk). lia.
Qed.

Lemma to_bits_lxor (w : Width) (a b : Z) :
  to_bits w (Z.lxor a b) = Z.lxor (to_bits w a) (to_bits w b).
Proof.
  unfold to_bits, modulus. apply lxor_mod_pow2. destruct w; cbn; lia.
Qed.

Lemma in_range_promote (T : IntType) (v : Z) :
  in_range T v -> in_range (promote T) v.
Proof. intros H. destruct T as [[] []]; unfold_types; lia. Qed.

(** ** Running the operations *)

Ltac unfold_ops :=
  cbv [mtk_atomic_load mtk_atomic_store mtk_atomic_exchange
       mtk_atomic_fetch_add mtk_atomic_xor_fetch
       mtk_atomic_compare_exchange mtk_atomic_compare_exchange_n
       Msvc.atomic_load Msvc.atomic_store Msvc.atomic_exchange
       Msvc.atomic_fetch_add Msvc.atomic_xor_fetch
       Msvc.atomic_compare_exchange Msvc.bit_xor
       Msvc.has_acquire Msvc.has_release
       Gcc.atomic_load Gcc.atomic_store Gcc.atomic_exchange
       Gcc.atomic_fetch_add Gcc.atomic_fetch_sub Gcc.atomic_xor_fetch
       Gcc.atomic_compare_exchange Gcc.to_gcc_order
       Builtin.__atomic_load_n Builtin.__atomic_store_n
       Builtin.__atomic_exchange_n Builtin.__atomic_fetch_add
       Builtin.__atomic_fetch_sub Builtin.__atomic_xor_fetch
       Builtin.__atomic_compare_exchange
       Intrin._ReadWriteBarrier
       Intrin._InterlockedOr8 Intrin._InterlockedOr16 Intrin._InterlockedOr
       Intrin._InterlockedOr64 Intrin.InterlockedOr
       Intrin._InterlockedExchange8 Intrin._InterlockedExchange16
       Intrin._InterlockedExchange Intrin._InterlockedExchange64
       Intrin.InterlockedExchange
       Intrin._InterlockedExchangeAdd8 Intrin._InterlockedExchangeAdd16
       Intrin._InterlockedExchangeAdd Intrin._InterlockedExchangeAdd64
       Intrin.InterlockedExchangeAdd
       Intrin._InterlockedXor8 Intrin._InterlockedXor16 Intrin._InterlockedXor
       Intrin._InterlockedXor64 Intrin.InterlockedXor
       Intrin._InterlockedCompareExchange8 Intrin._InterlockedCompareExchange16
       Intrin._InterlockedCompareExchange Intrin._InterlockedCompareExchange64
       Intrin.InterlockedCompareExchange
       location bind ret read write when MemoryOrder_eqb orb
       fst snd cell barriers width is_signed
       char_t short_t long_t long_long_t].


(** *** What each operation computes

    One equation per operation, valid on both toolchains: the result and the
    bit pattern left in the location, from the bit pattern [b] found there.
    Only the barrier count depends on the toolchain and the ordering. *)

Lemma run_eq {A} (a a' : A) (b b' : Z) (n : nat) :
  a = a' -> b = b' -> (a, mkMem b n) = (a', mkMem b' n).
Proof. now intros -> ->. Qed.

Lemma load_run (tc : Toolchain) (T : IntType) (order : MemoryOrder)
    (b : Z) (n : nat) :
  is_bits (width T) b ->
  exists n', mtk_atomic_load tc T order (mkMem b n)
             = (static_cast T b, mkMem b n').
Proof.
  intros Hb.
  destruct tc, T as [[] []], order; unfold_ops; eexists;
    rewrite ?Z.lor_0_r; apply run_eq;
    unfold_types; Z.div_mod_to_equations; lia.
Qed.

Lemma store_run (tc : Toolchain) (T : IntType) (value : Z)
    (order : MemoryOrder) (m : Mem) :
  exists n', mtk_atomic_store tc T value order m
             = (tt, mkMem (to_bits (width T) value) n').
Proof.
  destruct m as [b n].
  destruct tc, T as [[] []], order; unfold_ops; eexists;
    (apply run_eq; [reflexivity |]); unfold_types; Z.div_mod_to_equations; lia.
Qed.

Lemma exchange_run (tc : Toolchain) (T : IntType) (value : Z)
    (order : MemoryOrder) (b : Z) (n : nat) :
  exists n', mtk_atomic_exchange tc T value order (mkMem b n)
             = (static_cast T b, mkMem (to_bits (width T) value) n').
Proof.
  destruct tc, T as [[] []], order; unfold_ops; eexists;
    apply run_eq; unfold_types; Z.div_mod_to_equations; lia.
Qed.

Lemma fetch_add_run (tc : Toolchain) (T : IntType) (value : Z)
    (order : MemoryOrder) (b : Z) (n : nat) :
  mtk_atomic_fetch_add tc T value order (mkMem b n)
  = (static_cast T b, mkMem (to_bits (width T) (b + value)) n).
Proof.
  destruct tc, T as [[] []]; unfold_ops;
    apply run_eq; unfold_types; Z.div_mod_to_equations; lia.
Qed.

(** The negation of the MSVC [atomic_fetch_sub]: undefined exactly at the
    operands of [negation_overflows], the exact opposite elsewhere. *)
Lemma negate_spec (T : IntType) (value : Z) :
  Msvc.negate (make_signed_t T) (static_cast (make_signed_t T) value)
  = if negation_overflows T value then None
    else Some (- static_cast (make_signed_t T) value).
Proof.
  unfold Msvc.negate, negation_overflows, in_rangeb.
  pose proof (static_cast_in_range (make_signed_t T) value) as Hr.
  set (x := static_cast (make_signed_t T) value) in *. clearbody x.
  destruct T as [[] sg]; unfold_types;
    repeat match goal with
           | |- context [?a <=? ?c] => destruct (Z.leb_spec a c)
           | |- context [?a =? ?c] => destruct (Z.eqb_spec a c)
           end; cbn; (reflexivity || lia).
Qed.

Lemma fetch_sub_run (tc : Toolchain) (T : IntType) (value : Z)
    (order : MemoryOrder) (b : Z) (n : nat) :
  fetch_sub_defined tc T value = true ->
  mtk_atomic_fetch_sub tc T value order (mkMem b n)
  = Some (static_cast T b, mkMem (to_bits (width T) (b - value)) n).
Proof.
  intros Hdef. destruct tc; cbn [mtk_atomic_fetch_sub fetch_sub_defined] in *.
  - apply negb_true_iff in Hdef.
    unfold Msvc.atomic_fetch_sub. rewrite negate_spec, Hdef. unfold defined.
    change (Msvc.atomic_fetch_add T ?v order)
      with (mtk_atomic_fetch_add MSVC T v order).
    rewrite fetch_add_run. do 3 f_equal. unfold Z.sub.
    apply to_bits_add_congr; [reflexivity |].
    rewrite to_bits_static_cast by reflexivity.
    apply to_bits_opp_congr. now apply to_bits_static_cast.
  - unfold defined, Gcc.atomic_fetch_sub, Builtin.__atomic_fetch_sub,
      bind, read, write, ret. cbn [cell barriers]. do 3 f_equal.
    unfold Z.sub. apply to_bits_add_congr; [| reflexivity].
    now apply to_bits_static_cast.
Qed.

Lemma fetch_sub_undefined (tc : Toolchain) (T : IntType) (value : Z)
    (order : MemoryOrder) (m : Mem) :
  fetch_sub_defined tc T value = false ->
  mtk_atomic_fetch_sub tc T value order m = None.
Proof.
  destruct tc; cbn [mtk_atomic_fetch_sub fetch_sub_defined];
    [| discriminate].
  intros Hdef. apply negb_false_iff in Hdef.
  unfold Msvc.atomic_fetch_sub. now rewrite negate_spec, Hdef.
Qed.

Lemma xor_fetch_run (tc : Toolchain) (T : IntType) (value : Z)
    (order : MemoryOrder) (b : Z) (n : nat) :
  in_range T value ->
  mtk_atomic_xor_fetch tc T value order (mkMem b n)
  = (Z.lxor (static_cast T b) value,
     mkMem (to_bits (width T) (Z.lxor (static_cast T b) value)) n).
Proof.
  intros Hv.
  assert (Hx : in_range T (Z.lxor (static_cast T b) value))
    by (apply in_range_lxor; [apply static_cast_in_range | assumption]).
  destruct tc.
  - (* MSVC: the intrinsic works on the signed view and returns the old
       value; the new one is recomputed by the wrapper. *)
    assert (Hret : forall Ty, width Ty = width T ->
              static_cast T
                (static_cast (promote T)
                   (Z.lxor (static_cast T (static_cast Ty b)) value))
              = Z.lxor (static_cast T b) value).
    { intros Ty E.
      rewrite (static_cast_same_width T Ty) by congruence.
      rewrite (static_cast_id (promote T)) by now apply in_range_promote.
      now apply static_cast_id. }
    destruct T as [[] sg]; unfold_ops; apply run_eq;
      first [ apply (Hret char_t); reflexivity
            | apply (Hret short_t); reflexivity
            | apply (Hret long_t); reflexivity
            | apply (Hret long_long_t); reflexivity
            | rewrite !to_bits_lxor, !to_bits_static_cast by reflexivity;
              reflexivity ].
  - (* GCC/Clang: the builtin returns the new value itself. *)
    unfold_ops. rewrite (static_cast_id T _ Hx). reflexivity.
Qed.

Lemma compare_exchange_run (tc : Toolchain) (T : IntType)
    (expected desired : Z) (success_order failure_order : MemoryOrder)
    (b : Z) (n : nat) :
  in_range T expected ->
  mtk_atomic_compare_exchange tc T expected desired
    success_order failure_order (mkMem b n)
  = if static_cast T b =? expected
    then ((true, expected), mkMem (to_bits (width T) desired) n)
    else ((false, static_cast T b), mkMem b n).
Proof.
  intros He.
  destruct tc, T as [[] []]; unfold_ops;
    repeat match goal with
           | |- context [?x =? ?y] => destruct (Z.eqb_spec x y)
           end;
    try (exfalso; unfold_types; Z.div_mod_to_equations; lia);
    apply run_eq;
    try reflexivity;
    try (f_equal; unfold_types; Z.div_mod_to_equations; lia);
    unfold_types; Z.div_mod_to_equations; lia.
Qed.

Lemma read_back (T : IntType) (v : Z) :
  in_range T v -> static_cast T (to_bits (width T) v) = v.
Proof.
  intros Hv. rewrite static_cast_to_bits by reflexivity.
  now apply static_cast_id.
Qed.

Lemma to_bits_unfold (w : Width) (z : Z) :
  to_bits w z = z mod 2 ^ (8 * sizeof w).
Proof. reflexivity. Qed.

(** ** The atomic operations *)

(** C8. Store/load round trip: on either toolchain, for every integral type
    of width 1, 2, 4 or 8, every value [v] of that type and every pair of
    orderings, a store of [v] followed by a load of the same location
    returns [v], whatever the location held before. *)
Theorem store_load_roundtrip (tc : Toolchain) (T : IntType) (v : Z)
    (store_order load_order : MemoryOrder) (m : Mem) :
  in_range T v ->
  fst ((mtk_atomic_store tc T v store_order ;;;
        mtk_atomic_load tc T load_order) m) = v.
Proof.
  intros Hv. unfold bind.
  destruct (store_run tc T v store_order m) as [n1 ->].
  destruct (load_run tc T load_order _ n1 (to_bits_is_bits (width T) v))
    as [n2 ->].
  cbn [fst]. now apply read_back.
Qed.

Lemma store_load_roundtrip_witness :
  fst ((mtk_atomic_store MSVC long_t (-5) Release ;;;
        mtk_atomic_load MSVC long_t Acquire) (mkMem 77 0)) = -5.
Proof.
  apply (store_load_roundtrip MSVC long_t (-5) Release Acquire (mkMem 77 0)).
  unfold in_range; cbn; lia.
Defined.

(** C9. A load never changes the stored value: on either toolchain (under
    MSVC the load is an interlocked OR with zero), for every type, ordering
    and value [v] held, the load returns [v] and leaves the bit pattern of
    the location untouched; consequently a compare-exchange expecting [v]
    that is issued after the load still succeeds. *)
Theorem load_preserves_value (tc : Toolchain) (T : IntType)
    (order : MemoryOrder) (v : Z) (n : nat) :
  in_range T v ->
  let r := mtk_atomic_load tc T order (location T v n) in
  fst r = v /\
  cell (snd r) = cell (location T v n) /\
  forall desired so fo,
    fst (mtk_atomic_compare_exchange tc T v desired so fo (snd r)) = (true, v).
Proof.
  intros Hv r. subst r. unfold location.
  destruct (load_run tc T order _ n (to_bits_is_bits (width T) v)) as [n' ->].
  cbn [fst snd cell]. rewrite (read_back T v Hv).
  split; [reflexivity | split; [reflexivity |]].
  intros desired so fo.
  rewrite (compare_exchange_run tc T v desired so fo _ n' Hv).
  rewrite (read_back T v Hv), Z.eqb_refl. reflexivity.
Qed.

Lemma load_preserves_value_witness :
  fst (mtk_atomic_load MSVC char_t SeqCst (location char_t (-128) 0)) = -128 /\
  cell (snd (mtk_atomic_load MSVC char_t SeqCst (location char_t (-128) 0)))
  = cell (location char_t (-128) 0) /\
  fst (mtk_atomic_compare_exchange MSVC char_t (-128) 5 SeqCst Relaxed
         (snd (mtk_atomic_load MSVC char_t SeqCst (location char_t (-128) 0))))
  = (true, -128).
Proof.
  destruct (load_preserves_value MSVC char_t SeqCst (-128) 0) as (A & B & C).
  - unfold in_range; cbn; lia.
  - split; [exact A | split; [exact B | apply C]].
Defined.

(** C7. [fetch_add] returns the value held before the operation, and a
    following load observes [old + delta] reduced modulo [2^(8w)]: the bit
    pattern read is [(old + delta) mod 2^(8w)], that is the value
    [static_cast<T>(old + delta)]. *)
Theorem fetch_add_then_load (tc : Toolchain) (T : IntType)
    (order load_order : MemoryOrder) (old delta : Z) (n : nat) :
  in_range T old -> in_range T delta ->
  let r := mtk_atomic_fetch_add tc T delta order (location T old n) in
  let l := mtk_atomic_load tc T load_order (snd r) in
  fst r = old /\
  fst l = static_cast T (old + delta) /\
  to_bits (width T) (fst l) = (old + delta) mod 2 ^ (8 * sizeof (width T)).
Proof.
  intros Hold Hdelta r l. subst r l. unfold location.
  rewrite fetch_add_run. cbn [fst snd].
  destruct (load_run tc T load_order _ n
              (to_bits_is_bits (width T) (to_bits (width T) old + delta)))
    as [n' ->].
  cbn [fst].
  rewrite (read_back T old Hold).
  assert (E : to_bits (width T) (to_bits (width T) old + delta)
              = to_bits (width T) (old + delta)).
  { unfold to_bits. rewrite Zplus_mod_idemp_l. reflexivity. }
  rewrite E, static_cast_to_bits, to_bits_static_cast by reflexivity.
  repeat split; reflexivity.
Qed.

Lemma fetch_add_then_load_witness :
  fst (mtk_atomic_fetch_add GCC uint8_t 100 Relaxed (location uint8_t 200 0))
  = 200 /\
  fst (mtk_atomic_load GCC uint8_t SeqCst
         (snd (mtk_atomic_fetch_add GCC uint8_t 100 Relaxed
                 (location uint8_t 200 0))))
  = static_cast uint8_t (200 + 100) /\
  to_bits W1
    (fst (mtk_atomic_load GCC uint8_t SeqCst
            (snd (mtk_atomic_fetch_add GCC uint8_t 100 Relaxed
                    (location uint8_t 200 0)))))
  = (200 + 100) mod 2 ^ (8 * sizeof W1).
Proof.
  apply (fetch_add_then_load GCC uint8_t Relaxed SeqCst 200 100 0);
    unfold in_range; cbn; lia.
Defined.

Lemma to_bits_add_l (w : Width) (a b : Z) :
  to_bits w (to_bits w a + b) = to_bits w (a + b).
Proof. unfold to_bits. apply Zplus_mod_idemp_l. Qed.

Lemma to_bits_sub_l (w : Width) (a b : Z) :
  to_bits w (to_bits w a - b) = to_bits w (a - b).
Proof. unfold to_bits. apply Zminus_mod_idemp_l. Qed.

(** Where the negation of the MSVC [atomic_fetch_sub] is exact, and the one
    operand of a type at which it has no defined result. *)
Lemma negate_exact (Ty : IntType) (x : Z) :
  is_signed Ty = true -> in_range Ty x -> x <> min_value (promote Ty) ->
  Msvc.negate Ty x = Some (- x).
Proof.
  intros Hs Hx Hmin. unfold Msvc.negate, in_rangeb.
  destruct Ty as [[] []]; try discriminate; unfold_types;
    repeat match goal with
           | |- context [?a <=? ?c] => destruct (Z.leb_spec a c)
           end; cbn; (reflexivity || lia).
Qed.

Lemma negate_min (Ty : IntType) :
  is_signed Ty = true -> promote Ty = Ty ->
  Msvc.negate Ty (min_value Ty) = None.
Proof.
  intros Hs Hp. unfold Msvc.negate. rewrite Hp.
  destruct Ty as [[] []]; try discriminate; reflexivity.
Qed.

(** C4. [fetch_add] and [fetch_sub] at the minimum of the signed range as
    the operand.  [fetch_add] wraps on both toolchains, and so does
    [fetch_sub] under GCC/Clang and, for 1-byte types, under MSVC.  Under
    MSVC [fetch_sub] on a 4- or 8-byte type first negates the operand in
    [make_signed_t<T>]: at the minimum ([INT_MIN], [LLONG_MIN], and the
    unsigned operands [2^31], [2^63]) that negation is a signed overflow
    and the call has no defined result. *)
Theorem fetch_sub_minimum_undefined :
  mtk_atomic_fetch_sub MSVC long_long_t (min_value long_long_t) SeqCst
    (location long_long_t (-1) 0) = None /\
  mtk_atomic_fetch_sub MSVC long_t (min_value long_t) SeqCst
    (location long_t (-1) 0) = None /\
  mtk_atomic_fetch_sub MSVC uint32_t (2 ^ 31) SeqCst
    (location uint32_t 5 0) = None /\
  mtk_atomic_fetch_sub GCC long_long_t (min_value long_long_t) SeqCst
    (location long_long_t (-1) 0)
  = Some (-1, mkMem ((-1 - min_value long_long_t) mod 2 ^ (8 * sizeof W8)) 0) /\
  mtk_atomic_fetch_sub MSVC char_t (min_value char_t) SeqCst
    (location char_t (-1) 0)
  = Some (-1, mkMem ((-1 - min_value char_t) mod 2 ^ (8 * sizeof W1)) 0) /\
  mtk_atomic_fetch_add MSVC long_long_t (min_value long_long_t) SeqCst
    (location long_long_t (-1) 0)
  = (-1, mkMem ((-1 + min_value long_long_t) mod 2 ^ (8 * sizeof W8)) 0).
Proof. repeat split; reflexivity. Qed.

(** C6. [xor_fetch] returns the value after the operation: on either
    toolchain, for every type, orderings, value [v] held and [mask], it
    returns [v xor mask] and leaves that value in the location (a following
    load reads it); a second [xor_fetch] with the same mask returns [v] and
    restores the original contents. *)
Theorem xor_fetch_post_value (tc : Toolchain) (T : IntType)
    (order load_order order2 : MemoryOrder) (v mask : Z) (n : nat) :
  in_range T v -> in_range T mask ->
  let r1 := mtk_atomic_xor_fetch tc T mask order (location T v n) in
  let r2 := mtk_atomic_xor_fetch tc T mask order2 (snd r1) in
  fst r1 = Z.lxor v mask /\
  cell (snd r1) = to_bits (width T) (Z.lxor v mask) /\
  fst (mtk_atomic_load tc T load_order (snd r1)) = Z.lxor v mask /\
  fst r2 = v /\
  cell (snd r2) = cell (location T v n).
Proof.
  intros Hv Hmask r1 r2. subst r1 r2. unfold location.
  pose proof (in_range_lxor T v mask Hv Hmask) as Hx.
  rewrite (xor_fetch_run tc T mask order _ n Hmask).
  rewrite (read_back T v Hv). cbn [fst snd cell].
  destruct (load_run tc T load_order _ n
              (to_bits_is_bits (width T) (Z.lxor v mask))) as [n' ->].
  rewrite (xor_fetch_run tc T mask order2 _ n Hmask).
  cbn [fst snd cell]. rewrite (read_back T _ Hx).
  rewrite Z.lxor_assoc, Z.lxor_nilpotent, Z.lxor_0_r.
  repeat split; reflexivity.
Qed.

Lemma xor_fetch_post_value_witness :
  fst (mtk_atomic_xor_fetch MSVC int16_t (-1) AcqRel (location int16_t 5 0))
  = Z.lxor 5 (-1) /\
  cell (snd (mtk_atomic_xor_fetch MSVC int16_t (-1) AcqRel
               (location int16_t 5 0)))
  = to_bits W2 (Z.lxor 5 (-1)) /\
  fst (mtk_atomic_load MSVC int16_t SeqCst
         (snd (mtk_atomic_xor_fetch MSVC int16_t (-1) AcqRel
                 (location int16_t 5 0))))
  = Z.lxor 5 (-1) /\
  fst (mtk_atomic_xor_fetch MSVC int16_t (-1) Relaxed
         (snd (mtk_atomic_xor_fetch MSVC int16_t (-1) AcqRel
                 (location int16_t 5 0))))
  = 5 /\
  cell (snd (mtk_atomic_xor_fetch MSVC int16_t (-1) Relaxed
               (snd (mtk_atomic_xor_fetch MSVC int16_t (-1) AcqRel
                       (location int16_t 5 0)))))
  = cell (location int16_t 5 0).
Proof.
  apply (xor_fetch_post_value MSVC int16_t AcqRel SeqCst Relaxed 5 (-1) 0);
    unfold in_range; cbn; lia.
Defined.

(** C2. Strong compare-and-swap: on either toolchain, for every type,
    ordering pair and value [V] held, with [*expected = e] on entry: if
    [V = e] the call returns true, the location holds [desired] and
    [*expected] is still [e]; if [V <> e] it returns false, the location
    still holds [V] and [*expected] is [V].  Nothing else changes. *)
Theorem compare_exchange_strong (tc : Toolchain) (T : IntType)
    (success_order failure_order : MemoryOrder) (V e desired : Z) (n : nat) :
  in_range T V -> in_range T e ->
  (V = e ->
   mtk_atomic_compare_exchange tc T e desired success_order failure_order
     (location T V n)
   = ((true, e), location T desired n)) /\
  (V <> e ->
   mtk_atomic_compare_exchange tc T e desired success_order failure_order
     (location T V n)
   = ((false, V), location T V n)).
Proof.
  intros HV He. unfold location.
  rewrite (compare_exchange_run tc T e desired _ _ _ n He).
  rewrite (read_back T V HV).
  split; intros H.
  - subst e. rewrite Z.eqb_refl. reflexivity.
  - apply Z.eqb_neq in H. rewrite H. reflexivity.
Qed.

Lemma compare_exchange_strong_witness :
  mtk_atomic_compare_exchange MSVC uint32_t 7 9 SeqCst Relaxed
    (location uint32_t 7 0)
  = ((true, 7), location uint32_t 9 0) /\
  mtk_atomic_compare_exchange MSVC uint32_t 8 9 SeqCst Relaxed
    (location uint32_t 7 0)
  = ((false, 7), location uint32_t 7 0).
Proof.
  split.
  - apply (compare_exchange_strong MSVC uint32_t SeqCst Relaxed 7 7 9 0);
      unfold in_range; cbn; lia.
  - apply (compare_exchange_strong MSVC uint32_t SeqCst Relaxed 7 8 9 0);
      unfold in_range; cbn; lia.
Defined.

(** ** Equivalence of the two toolchain branches *)

(** C1. The two branches at [fetch_sub] with the minimum of [long] as the
    operand, on a location holding 5: the GCC/Clang branch returns 5 and
    leaves the bit pattern of [5 - INT_MIN]; the MSVC branch negates
    [INT_MIN] in the signed type, a signed overflow, and has no defined
    result to compare. *)
Theorem fetch_sub_minimum_breaks_equivalence :
  observe_outcome (run_op MSVC long_t (OpFetchSub (min_value long_t))
                     SeqCst Relaxed (location long_t 5 0))
  = None /\
  observe_outcome (run_op GCC long_t (OpFetchSub (min_value long_t))
                     SeqCst Relaxed (location long_t 5 0))
  = Some (RValue 5, 2147483653).
Proof. split; reflexivity. Qed.

(** ** The ordering translation of the compatibility section *)

(** C5 as stated fails: code 1 ([__ATOMIC_CONSUME]) has no case of its own
    and takes the default, [SeqCst], not [Acquire]. *)
Lemma map_gcc_order_consume_not_acquire :
  mtk_map_gcc_order __ATOMIC_CONSUME = SeqCst /\
  mtk_map_gcc_order 1 <> Acquire.
Proof. split; [reflexivity | discriminate]. Qed.

(** C5, amended. [mtk_map_gcc_order] maps 0 to [Relaxed], 2 to [Acquire],
    3 to [Release], 4 to [AcqRel] and 5 to [SeqCst]; every other integer
    code, 1 (Consume) included, is mapped to [SeqCst]. *)
Theorem map_gcc_order_table (order : Z) :
  mtk_map_gcc_order 0 = Relaxed /\
  mtk_map_gcc_order 2 = Acquire /\
  mtk_map_gcc_order 3 = Release /\
  mtk_map_gcc_order 4 = AcqRel /\
  mtk_map_gcc_order 5 = SeqCst /\
  (order <> 0 -> order <> 2 -> order <> 3 -> order <> 4 ->
   mtk_map_gcc_order order = SeqCst).
Proof.
  repeat (split; [reflexivity |]).
  intros H0 H2 H3 H4. unfold mtk_map_gcc_order.
  unfold __ATOMIC_RELAXED, __ATOMIC_ACQUIRE, __ATOMIC_RELEASE,
    __ATOMIC_ACQ_REL, __ATOMIC_SEQ_CST.
  apply Z.eqb_neq in H0, H2, H3, H4. rewrite H0, H2, H3, H4.
  destruct (order =? 5); reflexivity.
Qed.

Lemma map_gcc_order_table_witness :
  mtk_map_gcc_order 0 = Relaxed /\
  mtk_map_gcc_order 2 = Acquire /\
  mtk_map_gcc_order 3 = Release /\
  mtk_map_gcc_order 4 = AcqRel /\
  mtk_map_gcc_order 5 = SeqCst /\
  mtk_map_gcc_order 1 = SeqCst /\
  mtk_map_gcc_order (-7) = SeqCst.
Proof.
  destruct (map_gcc_order_table 1) as (A & B & C & D & E & F).
  destruct (map_gcc_order_table (-7)) as (_ & _ & _ & _ & _ & G).
  split; [exact A |]. split; [exact B |]. split; [exact C |].
  split; [exact D |]. split; [exact E |].
  split; [apply F | apply G]; lia.
Defined.

(** ** Bit utilities *)

Lemma scan_forward_spec (n : nat) (i x : Z) :
  match scan_forward n i x with
  | Some k =>
      i <= k < i + Z.of_nat n /\ Z.testbit x k = true /\
      forall j, i <= j < k -> Z.testbit x j = false
  | None => forall j, i <= j < i + Z.of_nat n -> Z.testbit x j = false
  end.
Proof.
  revert i. induction n as [| n IH]; intros i; cbn [scan_forward].
  - intros j Hj. lia.
  - destruct (Z.testbit x i) eqn:Hi.
    + repeat split; try lia. exact Hi.
    + specialize (IH (i + 1)). destruct (scan_forward n (i + 1) x) as [k |].
      * destruct IH as (Hk & Hset & Hlow). repeat split; try lia; [exact Hset |].
        intros j Hj. destruct (Z.eq_dec j i) as [-> | Hne]; [exact Hi |].
        apply Hlow. lia.
      * intros j Hj. destruct (Z.eq_dec j i) as [-> | Hne]; [exact Hi |].
        apply IH. lia.
Qed.

(** A nonzero 64-bit word has a set bit among its 64 positions. *)
Lemma scan_forward_finds (x : Z) :
  0 < x < 2 ^ 64 -> scan_forward 64 0 x <> None.
Proof.
  intros Hx Hnone.
  pose proof (scan_forward_spec 64 0 x) as H. rewrite Hnone in H.
  assert (E : x = 0); [| lia].
  apply Z.bits_inj'. intros j Hj. rewrite Z.bits_0.
  destruct (Z_lt_le_dec j 64) as [Hlt | Hge].
  - apply H. lia.
  - rewrite <- (Z.mod_small x (2 ^ 64)) by lia.
    apply Z.mod_pow2_bits_high. lia.
Qed.

(** For a nonzero 64-bit word both toolchains return the index of the lowest
    set bit. *)
Lemma lowest_set_bit_64_nonzero (tc : Toolchain) (x : Z) :
  0 < x < 2 ^ 64 ->
  exists k, lowest_set_bit_64 tc x = Some k /\
            0 <= k < 64 /\ Z.testbit x k = true /\
            forall j, 0 <= j < k -> Z.testbit x j = false.
Proof.
  intros Hx.
  pose proof (scan_forward_spec 64 0 x) as H.
  pose proof (scan_forward_finds x Hx) as Hsome.
  destruct (scan_forward 64 0 x) as [k |] eqn:E; [| congruence].
  destruct H as (Hk & Hset & Hlow).
  exists k. split; [| repeat split; try lia; assumption].
  destruct tc; unfold lowest_set_bit_64, _BitScanForward64, __builtin_ctzll.
  - rewrite E. f_equal. apply static_cast_id. unfold in_range; cbn; lia.
  - destruct (Z.eqb_spec x 0); [lia | exact E].
Qed.

(** C3. The zero word: the MSVC branch returns the sentinel 64, the
    GCC/Clang branch hands zero to [__builtin_ctzll], which has no defined
    result for it.  On [0b1000] both branches return 3. *)
Theorem lowest_set_bit_64_zero :
  lowest_set_bit_64 MSVC 0 = Some 64 /\
  lowest_set_bit_64 GCC 0 = None /\
  lowest_set_bit_64 MSVC 8 = Some 3 /\
  lowest_set_bit_64 GCC 8 = Some 3.
Proof. repeat split; reflexivity. Qed.

(** The body of [log2], as the conditional expression of the source. *)
Lemma log2_step (x : Z) :
  log2 x = if x <=? 1 then 0 else 1 + log2 (Z.shiftr x 1).
Proof.
  rewrite log2_equation_1.
  destruct (Z_le_gt_dec x 1) as [H | H]; cbn;
    destruct (Z.leb_spec x 1); (reflexivity || lia).
Qed.

Lemma shiftr_1_half (x : Z) : Z.shiftr x 1 = x / 2.
Proof. rewrite Z.shiftr_div_pow2 by lia. reflexivity. Qed.

Lemma log2_floor (x : Z) :
  1 <= x -> 0 <= log2 x /\ 2 ^ log2 x <= x < 2 ^ (log2 x + 1).
Proof.
  funelim (log2 x); intros Hx.
  - assert (x = 1) by lia. subst x. cbn. lia.
  - match goal with
    | IH : 1 <= _ -> 0 <= log2 _ /\ _ |- _ =>
        rewrite shiftr_1_half in *; destruct IH as (Hnn & Hlo & Hhi);
          [Z.div_mod_to_equations; lia |]
    end.
    set (l := log2 (x / 2)) in *.
    rewrite (Z.add_comm 1 l), !Z.pow_add_r, Z.pow_1_r in * by lia.
    split; [lia |]. Z.div_mod_to_equations. nia.
Qed.

(** [d + 1] nested calls are enough below [2^(d+1)]. *)
Lemma log2_within_enough (d : nat) (x : Z) :
  x < 2 ^ (Z.of_nat d + 1) -> log2_within (S d) x = Some (log2 x).
Proof.
  revert x. induction d as [| d IH]; intros x Hx.
  - cbn [log2_within]. rewrite log2_step.
    change (2 ^ (Z.of_nat 0 + 1)) with 2 in Hx.
    destruct (Z.leb_spec x 1); [reflexivity | lia].
  - change (log2_within (S (S d)) x)
      with (if x <=? 1 then Some 0
            else option_map (Z.add 1) (log2_within (S d) (Z.shiftr x 1))).
    rewrite (log2_step x).
    destruct (Z.leb_spec x 1) as [Hle | Hgt]; [reflexivity |].
    rewrite IH; [reflexivity |].
    rewrite shiftr_1_half.
    rewrite Nat2Z.inj_succ, Z.add_succ_l in Hx.
    rewrite Z.pow_succ_r in Hx by lia.
    Z.div_mod_to_equations. lia.
Qed.

(** C10. [log2] is total, and on every [int] its recursion ends within 31
    nested calls, each on a strictly shorter operand [x >> 1].  For every
    [x <= 1] (zero and the negative inputs included) the result is 0 and
    the outermost call alone produces it; for every [x >= 1] the result is
    the floor of the base-2 logarithm: [2^(log2 x) <= x < 2^(log2 x + 1)].
    On [int] the result lies in [0, 30], so the addition never overflows. *)
Theorem log2_total_floor (x : Z) :
  (x <= 1 -> log2 x = 0 /\ log2_within 1 x = Some 0) /\
  (1 < x -> log2 x = 1 + log2 (Z.shiftr x 1) /\
            (bit_length (Z.shiftr x 1) < bit_length x)%nat) /\
  (1 <= x -> 2 ^ log2 x <= x < 2 ^ (log2 x + 1)) /\
  (in_range int_t x ->
   log2_within 31 x = Some (log2 x) /\ 0 <= log2 x <= 30).
Proof.
  split; [| split; [| split]].
  - intros Hx. rewrite log2_step. cbn [log2_within].
    destruct (Z.leb_spec x 1); [split; reflexivity | lia].
  - intros Hx. split.
    + rewrite (log2_step x). destruct (Z.leb_spec x 1); [lia | reflexivity].
    + destruct x as [| p | p]; try lia.
      destruct p as [q | q |]; try lia; cbn; lia.
  - intros Hx. apply (log2_floor x Hx).
  - intros Hx. unfold in_range in Hx. cbn in Hx. split.
    + apply (log2_within_enough 30). cbn. lia.
    + destruct (Z_le_gt_dec x 1) as [Hle | Hgt].
      * rewrite log2_step. destruct (Z.leb_spec x 1); lia.
      * destruct (log2_floor x ltac:(lia)) as (Hnn & Hlo & _).
        split; [exact Hnn |].
        destruct (Z_le_gt_dec (log2 x) 30) as [| Hbig]; [assumption |].
        assert (2 ^ 31 <= 2 ^ log2 x) by (apply Z.pow_le_mono_r; lia).
        change (2 ^ 31) with 2147483648 in *. lia.
Qed.

Lemma log2_total_floor_witness :
  (log2 (-3) = 0 /\ log2_within 1 (-3) = Some 0) /\
  (log2 8 = 1 + log2 (Z.shiftr 8 1) /\
   (bit_length (Z.shiftr 8 1) < bit_length 8)%nat) /\
  (2 ^ log2 8 <= 8 < 2 ^ (log2 8 + 1)) /\
  (log2_within 31 2147483647 = Some (log2 2147483647) /\
   0 <= log2 2147483647 <= 30).
Proof.
  split; [| split; [| split]].
  - apply (log2_total_floor (-3)). lia.
  - apply (log2_total_floor 8). lia.
  - apply (log2_total_floor 8). lia.
  - apply (log2_total_floor 2147483647). unfold in_range; cbn; lia.
Defined.

(** ** The worked values of the bit utilities *)

Example log2_8 : log2 8 = 3.
Proof. reflexivity. Qed.

Example log2_0 : log2 0 = 0.
Proof. reflexivity. Qed.

Example is_power_of_2_0 : is_power_of_2 0 = false.
Proof. reflexivity. Qed.

Example is_power_of_2_64 : is_power_of_2 64 = true.
Proof. reflexivity. Qed.

(** * Further properties of the atomic operations *)

(** [exchange] returns the value held before and installs the new one: a
    following load reads the new value, and exchanging the old value back
    returns the new one and restores the location. *)
Theorem exchange_returns_previous (tc : Toolchain) (T : IntType)
    (order load_order order2 : MemoryOrder) (old v : Z) (n : nat) :
  in_range T old -> in_range T v ->
  let r := mtk_atomic_exchange tc T v order (location T old n) in
  let r2 := mtk_atomic_exchange tc T old order2 (snd r) in
  fst r = old /\
  cell (snd r) = to_bits (width T) v /\
  fst (mtk_atomic_load tc T load_order (snd r)) = v /\
  fst r2 = v /\
  cell (snd r2) = cell (location T old n).
Proof.
  intros Hold Hv r r2. subst r r2. unfold location.
  destruct (exchange_run tc T v order (to_bits (width T) old) n) as [n1 ->].
  cbn [fst snd cell].
  destruct (load_run tc T load_order _ n1 (to_bits_is_bits (width T) v))
    as [n2 ->].
  destruct (exchange_run tc T old order2 (to_bits (width T) v) n1) as [n3 ->].
  cbn [fst snd cell]. rewrite (read_back T old Hold), (read_back T v Hv).
  repeat split; reflexivity.
Qed.

Lemma exchange_returns_previous_witness :
  fst (mtk_atomic_exchange MSVC int16_t (-7) SeqCst (location int16_t 300 0))
  = 300 /\
  cell (snd (mtk_atomic_exchange MSVC int16_t (-7) SeqCst
               (location int16_t 300 0)))
  = to_bits W2 (-7) /\
  fst (mtk_atomic_load MSVC int16_t Acquire
         (snd (mtk_atomic_exchange MSVC int16_t (-7) SeqCst
                 (location int16_t 300 0))))
  = -7 /\
  fst (mtk_atomic_exchange MSVC int16_t 300 Relaxed
         (snd (mtk_atomic_exchange MSVC int16_t (-7) SeqCst
                 (location int16_t 300 0))))
  = -7 /\
  cell (snd (mtk_atomic_exchange MSVC int16_t 300 Relaxed
               (snd (mtk_atomic_exchange MSVC int16_t (-7) SeqCst
                       (location int16_t 300 0)))))
  = cell (location int16_t 300 0).
Proof.
  apply (exchange_returns_previous MSVC int16_t SeqCst Acquire Relaxed
           300 (-7) 0);
    unfold in_range; cbn; lia.
Defined.

(** [compare_exchange_n] takes [expected] by value: it returns true exactly
    when the location holds [expected], has the memory effect of
    [compare_exchange], and reports nothing else to the caller. *)
Theorem compare_exchange_n_by_value (tc : Toolchain) (T : IntType)
    (success_order failure_order : MemoryOrder) (V e desired : Z) (n : nat) :
  in_range T V -> in_range T e ->
  mtk_atomic_compare_exchange_n tc T e desired success_order failure_order
    (location T V n)
  = (V =? e, if V =? e then location T desired n else location T V n).
Proof.
  intros HV He. unfold mtk_atomic_compare_exchange_n, bind, location.
  rewrite (compare_exchange_run tc T e desired _ _ _ n He).
  rewrite (read_back T V HV).
  destruct (V =? e); reflexivity.
Qed.

Lemma compare_exchange_n_by_value_witness :
  mtk_atomic_compare_exchange_n GCC uint8_t 200 1 SeqCst Relaxed
    (location uint8_t 255 0)
  = (false, location uint8_t 255 0) /\
  mtk_atomic_compare_exchange_n MSVC uint8_t 255 1 SeqCst Relaxed
    (location uint8_t 255 0)
  = (true, location uint8_t 1 0).
Proof.
  split.
  - apply (compare_exchange_n_by_value GCC uint8_t SeqCst Relaxed 255 200 1 0);
      unfold in_range; cbn; lia.
  - apply (compare_exchange_n_by_value MSVC uint8_t SeqCst Relaxed 255 255 1 0);
      unfold in_range; cbn; lia.
Defined.

(** [fetch_sub] undoes [fetch_add]: wherever the subtraction is defined
    (always under GCC/Clang; under MSVC unless the operand seen as signed is
    the minimum of a 4- or 8-byte type), adding and then subtracting the
    same operand leaves the memory exactly as before, also when the
    addition wrapped; the subtraction returns the wrapped intermediate
    value. *)
Theorem fetch_sub_undoes_fetch_add (tc : Toolchain) (T : IntType)
    (order order2 : MemoryOrder) (old delta : Z) (n : nat) :
  fetch_sub_defined tc T delta = true ->
  mtk_atomic_fetch_sub tc T delta order2
    (snd (mtk_atomic_fetch_add tc T delta order (location T old n)))
  = Some (static_cast T (old + delta), location T old n).
Proof.
  intros Hdef. unfold location.
  rewrite fetch_add_run. cbn [snd]. rewrite (fetch_sub_run _ _ _ _ _ _ Hdef).
  rewrite to_bits_add_l, to_bits_sub_l.
  rewrite static_cast_to_bits by reflexivity.
  do 2 f_equal. unfold location. do 2 f_equal. lia.
Qed.

Lemma fetch_sub_undoes_fetch_add_witness :
  mtk_atomic_fetch_sub MSVC uint8_t 200 Relaxed
    (snd (mtk_atomic_fetch_add MSVC uint8_t 200 SeqCst (location uint8_t 100 0)))
  = Some (static_cast uint8_t (100 + 200), location uint8_t 100 0).
Proof.
  apply (fetch_sub_undoes_fetch_add MSVC uint8_t SeqCst Relaxed 100 200 0).
  reflexivity.
Defined.

(** The results and the final memory of [k] successive [fetch_add]s. *)
Lemma fetch_add_calls_eq (tc : Toolchain) (T : IntType) (delta : Z)
    (order : MemoryOrder) (k : nat) (old : Z) (n : nat) :
  fetch_add_calls tc T delta order k (location T old n)
  = (map (fun i => static_cast T (old + Z.of_nat i * delta)) (seq 0 k),
     location T (old + Z.of_nat k * delta) n).
Proof.
  revert old. induction k as [| k IH]; intros old.
  - cbn. unfold ret, location. do 3 f_equal. lia.
  - cbn [fetch_add_calls]. unfold bind at 1. unfold location at 1.
    rewrite fetch_add_run.
    rewrite to_bits_add_l, static_cast_to_bits by reflexivity.
    fold (location T (old + delta) n).
    unfold bind at 1. rewrite (IH (old + delta)). unfold ret.
    cbn [seq map]. rewrite <- seq_shift, map_map.
    f_equal.
    + f_equal; [f_equal; lia |].
      apply map_ext. intros i. f_equal. lia.
    + f_equal. lia.
Qed.

(** [k] successive [fetch_add]s of [delta] give [k] results; the [i]-th call
    (from 0) returns the wrapped value of [old + i * delta], and the memory
    ends as the location holding [old + k * delta], overflow included. *)
Theorem fetch_add_calls_run (tc : Toolchain) (T : IntType) (delta : Z)
    (order : MemoryOrder) (k : nat) (old : Z) (n : nat) :
  let r := fetch_add_calls tc T delta order k (location T old n) in
  length (fst r) = k /\
  (forall i, (i < k)%nat ->
             nth i (fst r) 0 = static_cast T (old + Z.of_nat i * delta)) /\
  snd r = location T (old + Z.of_nat k * delta) n.
Proof.
  intros r. subst r. rewrite fetch_add_calls_eq. cbn [fst snd].
  split; [| split; [| reflexivity]].
  - rewrite length_map. apply length_seq.
  - intros i Hi.
    rewrite (nth_indep _ 0 (static_cast T (old + Z.of_nat 0 * delta)))
      by (rewrite length_map, length_seq; exact Hi).
    rewrite (map_nth (fun j => static_cast T (old + Z.of_nat j * delta))).
    rewrite seq_nth by exact Hi. reflexivity.
Qed.

(** The shared counter: [k] calls of [fetch_add(ptr, 1)] on a 64-bit
    unsigned location that starts at 0 return 0, 1, ..., k-1, each once, and
    leave [k] in the location, as long as [k] fits the type. *)
Theorem fetch_add_counter (tc : Toolchain) (order load_order : MemoryOrder)
    (k : nat) (n : nat) :
  in_range uint64_t (Z.of_nat k) ->
  let r := fetch_add_calls tc uint64_t 1 order k (location uint64_t 0 n) in
  fst r = map Z.of_nat (seq 0 k) /\
  NoDup (fst r) /\
  fst (mtk_atomic_load tc uint64_t load_order (snd r)) = Z.of_nat k.
Proof.
  intros Hk r. subst r. rewrite fetch_add_calls_eq. cbn [fst snd].
  assert (E : map (fun i => static_cast uint64_t (0 + Z.of_nat i * 1)) (seq 0 k)
              = map Z.of_nat (seq 0 k)).
  { apply map_ext_in. intros i Hi. apply in_seq in Hi.
    replace (0 + Z.of_nat i * 1) with (Z.of_nat i) by lia.
    apply static_cast_id. unfold in_range in *. cbn in *. lia. }
  rewrite E. split; [reflexivity | split].
  - apply Injective_map_NoDup; [| apply seq_NoDup].
    intros a b. apply Nat2Z.inj.
  - unfold location.
    destruct (load_run tc uint64_t load_order _ n
                (to_bits_is_bits (width uint64_t) (0 + Z.of_nat k * 1)))
      as [n' ->].
    cbn [fst]. replace (0 + Z.of_nat k * 1) with (Z.of_nat k) by lia.
    now apply (read_back uint64_t).
Qed.

Lemma fetch_add_counter_witness :
  fst (fetch_add_calls MSVC uint64_t 1 SeqCst 4 (location uint64_t 0 0))
  = map Z.of_nat (seq 0 4) /\
  NoDup (fst (fetch_add_calls MSVC uint64_t 1 SeqCst 4
                (location uint64_t 0 0))) /\
  fst (mtk_atomic_load MSVC uint64_t SeqCst
         (snd (fetch_add_calls MSVC uint64_t 1 SeqCst 4
                 (location uint64_t 0 0))))
  = Z.of_nat 4.
Proof.
  apply (fetch_add_counter MSVC SeqCst SeqCst 4 0).
  unfold in_range; cbn; lia.
Defined.

Lemma outcome_defined {A} (P : Mem -> Prop) (Q : Prop) (c : M A) (m : Mem) :
  P (snd (c m)) ->
  match defined c m with Some (_, m') => P m' | None => Q end.
Proof. unfold defined. destruct (c m). exact (fun H => H). Qed.

(** The one call without a defined result is the MSVC [fetch_sub] at the
    operands of [negation_overflows]. *)
Lemma fetch_sub_defined_false (tc : Toolchain) (T : IntType) (v : Z) :
  fetch_sub_defined tc T v = false ->
  tc = MSVC /\ negation_overflows T v = true.
Proof.
  destruct tc; cbn; [| discriminate].
  intros H. apply negb_false_iff in H. now split.
Qed.

(** Every operation leaves a bit pattern of the width of the type in the
    location, whatever its operands and orderings; the only call without a
    defined result is the MSVC [fetch_sub] whose negation overflows. *)
Theorem run_op_keeps_bits (tc : Toolchain) (T : IntType) (op : Op)
    (order failure_order : MemoryOrder) (b : Z) (n : nat) :
  is_bits (width T) b ->
  match run_op tc T op order failure_order (mkMem b n) with
  | Some (_, m') => is_bits (width T) (cell m')
  | None =>
      tc = MSVC /\ exists v, op = OpFetchSub v /\ negation_overflows T v = true
  end.
Proof.
  intros Hb.
  destruct op as [| v | v | v | v | v | e d]; cbn [run_op];
    try (apply outcome_defined; unfold bind).
  - destruct (load_run tc T order b n Hb) as [n1 ->]. exact Hb.
  - destruct (store_run tc T v order (mkMem b n)) as [n1 ->].
    apply to_bits_is_bits.
  - destruct (exchange_run tc T v order b n) as [n1 ->]. apply to_bits_is_bits.
  - rewrite fetch_add_run. apply to_bits_is_bits.
  - destruct (fetch_sub_defined tc T v) eqn:Hdef.
    + rewrite (fetch_sub_run tc T v order b n Hdef). apply to_bits_is_bits.
    + rewrite (fetch_sub_undefined tc T v order _ Hdef).
      destruct (fetch_sub_defined_false tc T v Hdef) as [-> Hov].
      split; [reflexivity |]. exists v. now split.
  - destruct tc, T as [[] sg]; unfold_ops; apply to_bits_is_bits.
  - destruct tc, T as [[] sg]; unfold_ops;
      repeat match goal with
             | |- context [?x =? ?y] => destruct (Z.eqb_spec x y)
             end;
      cbn [snd cell width]; first [exact Hb | apply to_bits_is_bits].
Qed.

Lemma run_op_keeps_bits_witness :
  match run_op MSVC char_t (OpXorFetch 100) Relaxed Relaxed (mkMem 255 0) with
  | Some (_, m') => is_bits (width char_t) (cell m')
  | None =>
      MSVC = MSVC /\
      exists v, OpXorFetch 100 = OpFetchSub v /\
                negation_overflows char_t v = true
  end.
Proof.
  apply (run_op_keeps_bits MSVC char_t (OpXorFetch 100) Relaxed Relaxed 255 0).
  unfold is_bits; cbn; lia.
Defined.

(** The two ordering translations are inverse on the enumeration: the code
    the GCC/Clang branch passes to the builtins is translated back to the
    same ordering by the compatibility section, and is never the Consume
    code. *)
Theorem map_gcc_order_inverts_to_gcc_order (order : MemoryOrder) :
  mtk_map_gcc_order (Gcc.to_gcc_order order) = order /\
  Gcc.to_gcc_order order <> __ATOMIC_CONSUME.
Proof. destruct order; split; (reflexivity || discriminate). Qed.

Lemma negation_overflows_static_cast (T : IntType) (val : Z) :
  negation_overflows T (static_cast T val) = negation_overflows T val.
Proof.
  unfold negation_overflows.
  rewrite (static_cast_same_width (make_signed_t T) T) by reflexivity.
  reflexivity.
Qed.

(** The compatibility [__atomic_fetch_add] and [__atomic_exchange_n] behave
    as the builtins they stand for: for every type, operand, integer
    ordering code (recognised or not) and memory, the same result and the
    same bit pattern in the location.  So does [__atomic_fetch_sub] at
    every operand whose negation does not overflow. *)
Theorem compat_matches_builtins (T : IntType) (val memorder : Z) (m : Mem) :
  observe (Compat.__atomic_fetch_add T val memorder m)
  = observe (Builtin.__atomic_fetch_add T val memorder m) /\
  observe (Compat.__atomic_exchange_n T val memorder m)
  = observe (Builtin.__atomic_exchange_n T val memorder m) /\
  (negation_overflows T val = false ->
   observe_outcome (Compat.__atomic_fetch_sub T val memorder m)
   = Some (observe (Builtin.__atomic_fetch_sub T val memorder m))).
Proof.
  destruct m as [b n].
  assert (Hv : to_bits (width T) (static_cast T val) = to_bits (width T) val)
    by now apply to_bits_static_cast.
  unfold Compat.__atomic_fetch_add, Compat.__atomic_fetch_sub,
    Compat.__atomic_exchange_n.
  change (Builtin.__atomic_fetch_add T val memorder)
    with (mtk_atomic_fetch_add GCC T val SeqCst).
  change (Builtin.__atomic_exchange_n T val memorder)
    with (mtk_atomic_exchange GCC T val SeqCst).
  rewrite !fetch_add_run.
  destruct (exchange_run MSVC T (static_cast T val)
              (mtk_map_gcc_order memorder) b n) as [n1 ->].
  destruct (exchange_run GCC T val SeqCst b n) as [n2 ->].
  unfold observe. cbn [fst snd cell]. rewrite Hv.
  split; [| split; [reflexivity |]].
  - f_equal. now apply to_bits_add_congr.
  - intros Hov.
    assert (Hdef : fetch_sub_defined MSVC T (static_cast T val) = true)
      by (cbn; now rewrite negation_overflows_static_cast, Hov).
    rewrite (fetch_sub_run MSVC T _ _ b n Hdef).
    unfold Builtin.__atomic_fetch_sub, bind, read, write, ret.
    unfold observe_outcome, option_map, observe. cbn [fst snd cell barriers].
    do 2 f_equal. unfold Z.sub.
    apply to_bits_add_congr;
      [symmetry; now apply to_bits_static_cast | now apply to_bits_opp_congr].
Qed.

Lemma compat_matches_builtins_witness :
  observe (Compat.__atomic_fetch_add uint8_t 300 9 (mkMem 250 0))
  = observe (Builtin.__atomic_fetch_add uint8_t 300 9 (mkMem 250 0)) /\
  observe (Compat.__atomic_exchange_n uint8_t 300 9 (mkMem 250 0))
  = observe (Builtin.__atomic_exchange_n uint8_t 300 9 (mkMem 250 0)) /\
  observe_outcome (Compat.__atomic_fetch_sub uint8_t 300 9 (mkMem 250 0))
  = Some (observe (Builtin.__atomic_fetch_sub uint8_t 300 9 (mkMem 250 0))).
Proof.
  destruct (compat_matches_builtins uint8_t 300 9 (mkMem 250 0))
    as (A & B & C).
  split; [exact A | split; [exact B | apply C; reflexivity]].
Defined.

(** The compatibility [__atomic_compare_exchange_n] ignores its [weak]
    flag and never fails spuriously: whatever flag it is given, it behaves
    as the strong form ([weak = false]) of the builtin compare-exchange:
    same flag, same final [*expected], same memory, for every pair of
    integer ordering codes. *)
Theorem compat_compare_exchange_matches_builtin (T : IntType)
    (expected desired : Z) (weak : bool) (success_order failure_order : Z)
    (m : Mem) :
  in_range T expected ->
  Compat.__atomic_compare_exchange_n T expected desired weak
    success_order failure_order m
  = Builtin.__atomic_compare_exchange T expected desired false
      success_order failure_order m.
Proof.
  intros He. destruct m as [b n].
  unfold Compat.__atomic_compare_exchange_n.
  change (Builtin.__atomic_compare_exchange T expected desired false
            success_order failure_order)
    with (mtk_atomic_compare_exchange GCC T expected desired SeqCst SeqCst).
  rewrite !(compare_exchange_run _ T expected _ _ _ b n He).
  rewrite to_bits_static_cast by reflexivity. reflexivity.
Qed.

Lemma compat_compare_exchange_matches_builtin_witness :
  Compat.__atomic_compare_exchange_n long_t (-1) 5000000000 true 7 1
    (mkMem 4294967295 0)
  = Builtin.__atomic_compare_exchange long_t (-1) 5000000000 false 7 1
      (mkMem 4294967295 0).
Proof.
  apply (compat_compare_exchange_matches_builtin long_t (-1) 5000000000 true
           7 1 (mkMem 4294967295 0)).
  unfold in_range; cbn; lia.
Defined.

(** Compiler barriers.  The GCC/Clang branch issues none of its own.  The
    MSVC branch issues one around a load exactly for [Acquire], [AcqRel] and
    [SeqCst], one around a store or an exchange exactly for [Release],
    [AcqRel] and [SeqCst], and none for [fetch_add], [fetch_sub],
    [xor_fetch] and [compare_exchange], whatever ordering is requested.
    Every call has a defined result except the MSVC [fetch_sub] whose
    negation overflows. *)
Theorem barrier_counts (T : IntType) (op : Op)
    (order failure_order : MemoryOrder) (b : Z) (n : nat) :
  match run_op GCC T op order failure_order (mkMem b n) with
  | Some (_, m') => barriers m' = n
  | None => False
  end /\
  match run_op MSVC T op order failure_order (mkMem b n) with
  | Some (_, m') =>
      barriers m'
      = match op with
        | OpLoad =>
            match order with Acquire | AcqRel | SeqCst => S n | _ => n end
        | OpStore _ | OpExchange _ =>
            match order with Release | AcqRel | SeqCst => S n | _ => n end
        | _ => n
        end
  | None => exists v, op = OpFetchSub v /\ negation_overflows T v = true
  end.
Proof.
  destruct op as [| v | v | v | v | v | e d]; cbn [run_op]; split;
    try (apply outcome_defined;
         destruct T as [[] sg], order; unfold_ops; reflexivity).
  - destruct (fetch_sub_defined MSVC T v) eqn:Hdef.
    + rewrite (fetch_sub_run MSVC T v order b n Hdef). reflexivity.
    + rewrite (fetch_sub_undefined MSVC T v order _ Hdef).
      destruct (fetch_sub_defined_false MSVC T v Hdef) as [_ Hov].
      exists v. now split.
  - apply outcome_defined. destruct T as [[] sg]; unfold_ops;
      repeat match goal with
             | |- context [?x =? ?y] => destruct (Z.eqb_spec x y)
             end; reflexivity.
  - apply outcome_defined. destruct T as [[] sg]; unfold_ops;
      repeat match goal with
             | |- context [?x =? ?y] => destruct (Z.eqb_spec x y)
             end; reflexivity.
Qed.

(** The retry of a compare-exchange loop: after a failed call, a second call
    with the updated [*expected] succeeds and installs [desired]. *)
Theorem compare_exchange_retry (tc : Toolchain) (T : IntType)
    (so fo so2 fo2 : MemoryOrder) (V e desired : Z) (n : nat) :
  in_range T V -> in_range T e -> V <> e ->
  let r1 := mtk_atomic_compare_exchange tc T e desired so fo (location T V n) in
  let r2 := mtk_atomic_compare_exchange tc T (snd (fst r1)) desired so2 fo2
              (snd r1) in
  r1 = ((false, V), location T V n) /\
  r2 = ((true, V), location T desired n).
Proof.
  intros HV He Hne r1 r2. subst r1 r2. unfold location.
  rewrite (compare_exchange_run tc T e desired so fo _ n He).
  rewrite (read_back T V HV).
  apply Z.eqb_neq in Hne. rewrite Hne. cbn [fst snd].
  rewrite (compare_exchange_run tc T V desired so2 fo2 _ n HV).
  rewrite (read_back T V HV), Z.eqb_refl.
  split; reflexivity.
Qed.

Lemma compare_exchange_retry_witness :
  mtk_atomic_compare_exchange MSVC int16_t 0 12 AcqRel Relaxed
    (location int16_t (-3) 0)
  = ((false, -3), location int16_t (-3) 0) /\
  mtk_atomic_compare_exchange MSVC int16_t
    (snd (fst (mtk_atomic_compare_exchange MSVC int16_t 0 12 AcqRel Relaxed
                 (location int16_t (-3) 0))))
    12 SeqCst Relaxed
    (snd (mtk_atomic_compare_exchange MSVC int16_t 0 12 AcqRel Relaxed
            (location int16_t (-3) 0)))
  = ((true, -3), location int16_t 12 0).
Proof.
  apply (compare_exchange_retry MSVC int16_t AcqRel Relaxed SeqCst Relaxed
           (-3) 0 12 0);
    unfold in_range; cbn; lia.
Defined.



(** ** The toolchains away from the overflowing negation *)

(** Apart from [fetch_sub] at an operand whose negation overflows under
    MSVC, the two branches are equivalent on values: for each of the seven
    operations, every type of width 1, 2, 4 or 8, every ordering argument,
    every bit pattern in the location and all operands of the type, both
    have a defined result, return the same value and leave the same bit
    pattern in the location. *)
Theorem toolchains_equivalent_where_defined (T : IntType) (op : Op)
    (order failure_order : MemoryOrder) (b : Z) (n : nat) :
  is_bits (width T) b -> operands_in_range T op ->
  (forall v, op = OpFetchSub v -> negation_overflows T v = false) ->
  run_op GCC T op order failure_order (mkMem b n) <> None /\
  observe_outcome (run_op MSVC T op order failure_order (mkMem b n))
  = observe_outcome (run_op GCC T op order failure_order (mkMem b n)).
Proof.
  intros Hb Hop Hsub.
  destruct op as [| v | v | v | v | v | e d];
    cbn [run_op operands_in_range] in *;
    unfold defined, bind, observe_outcome, option_map, observe;
    (split; [try discriminate |]).
  - destruct (load_run MSVC T order b n Hb) as [n1 ->].
    destruct (load_run GCC T order b n Hb) as [n2 ->]. reflexivity.
  - destruct (store_run MSVC T v order (mkMem b n)) as [n1 ->].
    destruct (store_run GCC T v order (mkMem b n)) as [n2 ->]. reflexivity.
  - destruct (exchange_run MSVC T v order b n) as [n1 ->].
    destruct (exchange_run GCC T v order b n) as [n2 ->]. reflexivity.
  - rewrite !fetch_add_run. reflexivity.
  - assert (Hdef : fetch_sub_defined MSVC T v = true)
      by (cbn; now rewrite (Hsub v eq_refl)).
    rewrite (fetch_sub_run MSVC T v order b n Hdef).
    rewrite (fetch_sub_run GCC T v order b n eq_refl). reflexivity.
  - rewrite !(xor_fetch_run _ T v order b n Hop). reflexivity.
  - destruct Hop as [He _].
    rewrite !(compare_exchange_run _ T e d order failure_order b n He).
    reflexivity.
Qed.

Lemma toolchains_equivalent_where_defined_witness :
  run_op GCC uint32_t (OpFetchSub 7) AcqRel Relaxed (mkMem 3 0) <> None /\
  observe_outcome (run_op MSVC uint32_t (OpFetchSub 7) AcqRel Relaxed
                     (mkMem 3 0))
  = observe_outcome (run_op GCC uint32_t (OpFetchSub 7) AcqRel Relaxed
                       (mkMem 3 0)).
Proof.
  apply (toolchains_equivalent_where_defined uint32_t (OpFetchSub 7)
           AcqRel Relaxed 3 0).
  - unfold is_bits; cbn; lia.
  - unfold operands_in_range, in_range; cbn; lia.
  - intros v Hv. injection Hv as <-. reflexivity.
Defined.

(** Wrapping of [fetch_add] and [fetch_sub]: on either toolchain, for every
    type, ordering, value [old] held and operand [delta], [fetch_add]
    returns [old] and leaves the bit pattern [(old + delta) mod 2^(8w)];
    wherever [fetch_sub] is defined it returns [old] and leaves
    [(old - delta) mod 2^(8w)].  It is defined for every operand under
    GCC/Clang and for every operand of a 1- or 2-byte type under MSVC. *)
Theorem fetch_add_sub_wrap_where_defined (tc : Toolchain) (T : IntType)
    (order : MemoryOrder) (old delta : Z) (n : nat) :
  in_range T old -> in_range T delta ->
  mtk_atomic_fetch_add tc T delta order (location T old n)
  = (old, mkMem ((old + delta) mod 2 ^ (8 * sizeof (width T))) n) /\
  (fetch_sub_defined tc T delta = true ->
   mtk_atomic_fetch_sub tc T delta order (location T old n)
   = Some (old, mkMem ((old - delta) mod 2 ^ (8 * sizeof (width T))) n)) /\
  (tc = GCC \/ width T = W1 \/ width T = W2 ->
   fetch_sub_defined tc T delta = true).
Proof.
  intros Hold Hdelta. unfold location. split; [| split].
  - rewrite fetch_add_run, (read_back T old Hold).
    rewrite to_bits_add_l, !to_bits_unfold. reflexivity.
  - intros Hdef.
    rewrite (fetch_sub_run tc T delta order _ n Hdef), (read_back T old Hold).
    rewrite to_bits_sub_l, !to_bits_unfold. reflexivity.
  - intros [-> | [Hw | Hw]]; [reflexivity | |];
      destruct tc; cbn; unfold negation_overflows; rewrite ?Hw; reflexivity.
Qed.

Lemma fetch_add_sub_wrap_where_defined_witness :
  mtk_atomic_fetch_add MSVC int16_t (min_value int16_t) SeqCst
    (location int16_t (-1) 0)
  = (-1, mkMem ((-1 + min_value int16_t) mod 2 ^ (8 * sizeof W2)) 0) /\
  mtk_atomic_fetch_sub MSVC int16_t (min_value int16_t) SeqCst
    (location int16_t (-1) 0)
  = Some (-1, mkMem ((-1 - min_value int16_t) mod 2 ^ (8 * sizeof W2)) 0) /\
  fetch_sub_defined MSVC int16_t (min_value int16_t) = true.
Proof.
  destruct (fetch_add_sub_wrap_where_defined MSVC int16_t SeqCst (-1)
              (min_value int16_t) 0) as (A & B & C);
    [unfold in_range; cbn; lia | unfold in_range; cbn; lia |].
  split; [exact A | split; [apply B; reflexivity | apply C; now right; right]].
Defined.

(** * Further properties of the bit utilities *)

Lemma word_without_bits (x : Z) :
  0 <= x < 2 ^ 64 ->
  (forall j, 0 <= j < 64 -> Z.testbit x j = false) -> x = 0.
Proof.
  intros Hx H. apply Z.bits_inj'. intros j Hj. rewrite Z.bits_0.
  destruct (Z_lt_le_dec j 64) as [Hlt | Hge].
  - apply H. lia.
  - rewrite <- (Z.mod_small x (2 ^ 64)) by lia.
    apply Z.mod_pow2_bits_high. lia.
Qed.

Lemma count_bits_bounds (n : nat) (i x : Z) :
  0 <= count_bits n i x <= Z.of_nat n.
Proof.
  revert i. induction n as [| n IH]; intros i; cbn [count_bits]; [lia |].
  specialize (IH (i + 1)). destruct (Z.testbit x i); lia.
Qed.

Lemma count_bits_zero (n : nat) (i x : Z) :
  count_bits n i x = 0 <->
  forall j, i <= j < i + Z.of_nat n -> Z.testbit x j = false.
Proof.
  revert i. induction n as [| n IH]; intros i; cbn [count_bits].
  - split; [intros _ j Hj; lia | reflexivity].
  - pose proof (count_bits_bounds n (i + 1) x) as Hb.
    specialize (IH (i + 1)). split.
    + intros H j Hj. destruct (Z.testbit x i) eqn:Hi; [lia |].
      destruct (Z.eq_dec j i) as [-> | Hne]; [exact Hi |].
      apply IH; lia.
    + intros H. rewrite (H i) by lia.
      apply IH. intros j Hj. apply H. lia.
Qed.

(** The count of a single set bit [k]: 1 when [k] is among the positions
    scanned, 0 otherwise. *)
Lemma count_bits_pow2 (n : nat) (i k : Z) :
  0 <= k ->
  count_bits n i (2 ^ k)
  = if (i <=? k) && (k <? i + Z.of_nat n) then 1 else 0.
Proof.
  intros Hk. revert i. induction n as [| n IH]; intros i; cbn [count_bits].
  - destruct (Z.leb_spec i k), (Z.ltb_spec k (i + Z.of_nat 0)); cbn; lia.
  - rewrite IH, Z.pow2_bits_eqb by assumption.
    destruct (Z.eqb_spec k i), (Z.leb_spec i k), (Z.leb_spec (i + 1) k),
      (Z.ltb_spec k (i + 1 + Z.of_nat n)), (Z.ltb_spec k (i + Z.of_nat (S n)));
      cbn; lia.
Qed.

(** [popcount_64] on a 64-bit word: both branches return the same count, it
    lies between 0 and 64 (the conversion to [int] of the MSVC branch loses
    nothing), and it is 0 for the zero word only. *)
Theorem popcount_64_range (tc : Toolchain) (x : Z) :
  0 <= x < 2 ^ 64 ->
  popcount_64 MSVC x = popcount_64 GCC x /\
  0 <= popcount_64 tc x <= 64 /\
  (popcount_64 tc x = 0 <-> x = 0).
Proof.
  intros Hx.
  pose proof (count_bits_bounds 64 0 x) as Hb.
  assert (E : forall t, popcount_64 t x = count_bits 64 0 x).
  { intros t. destruct t; unfold popcount_64, __popcnt64, __builtin_popcountll;
      [| reflexivity].
    apply static_cast_id. unfold in_range. cbn in *. lia. }
  rewrite !E. split; [reflexivity | split; [exact Hb |]].
  rewrite count_bits_zero. split.
  - intros H. apply (word_without_bits x Hx). intros j Hj. apply H. lia.
  - intros -> j _. apply Z.bits_0.
Qed.

Lemma popcount_64_range_witness :
  popcount_64 MSVC 18446744073709551615
  = popcount_64 GCC 18446744073709551615 /\
  0 <= popcount_64 MSVC 18446744073709551615 <= 64 /\
  (popcount_64 MSVC 18446744073709551615 = 0 <-> 18446744073709551615 = 0).
Proof.
  apply (popcount_64_range MSVC 18446744073709551615).
  change (2 ^ 64) with 18446744073709551616. lia.
Defined.

Lemma word_in_range (x : Z) : 0 <= x < 2 ^ 64 -> 1 <= x -> in_range uint64_t (x - 1).
Proof.
  intros Hx H1. unfold in_range. cbn.
  change (2 ^ 64) with 18446744073709551616 in Hx. lia.
Qed.

Lemma is_power_of_2_pow2 (k : Z) : 0 <= k < 64 -> is_power_of_2 (2 ^ k) = true.
Proof.
  intros Hk. unfold is_power_of_2.
  assert (Hpow : 0 < 2 ^ k) by (apply Z.pow_pos_nonneg; lia).
  assert (Hlt : 2 ^ k < 2 ^ 64) by (apply Z.pow_lt_mono_r; lia).
  rewrite andb_true_iff, negb_true_iff, Z.eqb_neq, Z.eqb_eq.
  split; [lia |].
  rewrite static_cast_id by (apply word_in_range; lia).
  replace (2 ^ k - 1) with (Z.ones k)
    by (rewrite Z.ones_equiv; unfold Z.pred; lia).
  rewrite Z.land_ones by lia. apply Z.mod_same. lia.
Qed.

Lemma is_power_of_2_inv (x : Z) :
  0 <= x < 2 ^ 64 -> is_power_of_2 x = true ->
  exists k, 0 <= k < 64 /\ x = 2 ^ k.
Proof.
  intros Hx. unfold is_power_of_2.
  rewrite andb_true_iff, negb_true_iff, Z.eqb_neq, Z.eqb_eq.
  intros [Hnz Hland].
  assert (Hpos : 0 < x) by lia.
  rewrite static_cast_id in Hland by (apply word_in_range; lia).
  destruct (Z.log2_spec x Hpos) as [Hlo Hhi].
  pose proof (Z.log2_nonneg x) as Hnn.
  exists (Z.log2 x). split.
  - split; [exact Hnn |]. apply Z.log2_lt_pow2; lia.
  - destruct (Z.eq_dec x (2 ^ Z.log2 x)) as [| Hne]; [assumption | exfalso].
    (* otherwise the top bit of [x] is also set in [x - 1] *)
    assert (Hlog : Z.log2 (x - 1) = Z.log2 x).
    { apply Z.log2_unique; [exact Hnn |]. lia. }
    assert (Hbit : Z.testbit (Z.land x (x - 1)) (Z.log2 x) = true).
    { rewrite Z.land_spec, (Z.bit_log2 x Hpos).
      rewrite <- Hlog at 1. rewrite Z.bit_log2 by lia. reflexivity. }
    rewrite Hland, Z.bits_0 in Hbit. discriminate.
Qed.

(** [is_power_of_2] decides exactly the powers of two among the 64-bit
    words: it is true for [2^k] with [0 <= k < 64] and false for every
    other word, zero included. *)
Theorem is_power_of_2_iff (x : Z) :
  0 <= x < 2 ^ 64 ->
  (is_power_of_2 x = true <-> exists k, 0 <= k < 64 /\ x = 2 ^ k).
Proof.
  intros Hx. split.
  - apply (is_power_of_2_inv x Hx).
  - intros (k & Hk & ->). apply (is_power_of_2_pow2 k Hk).
Qed.

Lemma is_power_of_2_iff_witness :
  is_power_of_2 4096 = true <-> exists k, 0 <= k < 64 /\ 4096 = 2 ^ k.
Proof.
  apply (is_power_of_2_iff 4096).
  change (2 ^ 64) with 18446744073709551616. lia.
Defined.

(** For a nonzero 64-bit word both toolchains return the same index [k]:
    bit [k] is set, no lower bit is, and so [2^k] is the largest power of
    two dividing the word. *)
Theorem lowest_set_bit_64_index (x : Z) :
  0 < x < 2 ^ 64 ->
  exists k, lowest_set_bit_64 MSVC x = Some k /\
            lowest_set_bit_64 GCC x = Some k /\
            0 <= k < 64 /\
            Z.testbit x k = true /\
            (forall j, 0 <= j < k -> Z.testbit x j = false) /\
            x mod 2 ^ k = 0 /\ x mod 2 ^ (k + 1) <> 0.
Proof.
  intros Hx.
  destruct (lowest_set_bit_64_nonzero MSVC x Hx) as (k & E1 & Hk & Hset & Hlow).
  destruct (lowest_set_bit_64_nonzero GCC x Hx) as (k' & E2 & Hk' & Hset' & Hlow').
  assert (k' = k).
  { destruct (Z.lt_trichotomy k' k) as [H | [H | H]]; [| exact H |].
    - rewrite (Hlow k') in Hset' by lia. discriminate.
    - rewrite (Hlow' k) in Hset by lia. discriminate. }
  subst k'. exists k. repeat split; try assumption; try lia.
  - apply Z.bits_inj'. intros j Hj.
    rewrite Z.testbit_mod_pow2, Z.bits_0 by lia.
    destruct (Z.ltb_spec j k); [cbn; apply Hlow; lia | reflexivity].
  - intros H0.
    assert (Hb : Z.testbit (x mod 2 ^ (k + 1)) k = true).
    { rewrite Z.testbit_mod_pow2 by lia.
      destruct (Z.ltb_spec k (k + 1)); [exact Hset | lia]. }
    rewrite H0, Z.bits_0 in Hb. discriminate.
Qed.

Lemma lowest_set_bit_64_index_witness :
  exists k, lowest_set_bit_64 MSVC 40 = Some k /\
            lowest_set_bit_64 GCC 40 = Some k /\
            0 <= k < 64 /\
            Z.testbit 40 k = true /\
            (forall j, 0 <= j < k -> Z.testbit 40 j = false) /\
            40 mod 2 ^ k = 0 /\ 40 mod 2 ^ (k + 1) <> 0.
Proof.
  apply (lowest_set_bit_64_index 40).
  change (2 ^ 64) with 18446744073709551616. lia.
Defined.

(** Under MSVC [lowest_set_bit_64] is defined on every 64-bit word, its
    result lies between 0 and 64, and it is the sentinel 64 for the zero
    word only. *)
Theorem lowest_set_bit_64_msvc_sentinel (x : Z) :
  0 <= x < 2 ^ 64 ->
  exists r, lowest_set_bit_64 MSVC x = Some r /\
            0 <= r <= 64 /\ (r = 64 <-> x = 0).
Proof.
  intros Hx. destruct (Z.eq_dec x 0) as [-> | Hnz].
  - exists 64. repeat split; (reflexivity || lia).
  - destruct (lowest_set_bit_64_nonzero MSVC x ltac:(lia))
      as (k & E & Hk & _).
    exists k. split; [exact E |]. split; [lia |]. split; intros; lia.
Qed.

Lemma lowest_set_bit_64_msvc_sentinel_witness :
  exists r, lowest_set_bit_64 MSVC 0 = Some r /\
            0 <= r <= 64 /\ (r = 64 <-> 0 = 0).
Proof.
  apply (lowest_set_bit_64_msvc_sentinel 0).
  change (2 ^ 64) with 18446744073709551616. lia.
Defined.

(** On the word with the single bit [k] set the three word utilities agree
    on both toolchains: one bit is counted, its index is [k], and the word
    is recognised as a power of two. *)
Theorem single_bit_word (tc : Toolchain) (k : Z) :
  0 <= k < 64 ->
  popcount_64 tc (2 ^ k) = 1 /\
  lowest_set_bit_64 tc (2 ^ k) = Some k /\
  is_power_of_2 (2 ^ k) = true.
Proof.
  intros Hk.
  assert (Hx : 0 < 2 ^ k < 2 ^ 64).
  { split; [apply Z.pow_pos_nonneg; lia | apply Z.pow_lt_mono_r; lia]. }
  split; [| split].
  - assert (E : count_bits 64 0 (2 ^ k) = 1).
    { rewrite count_bits_pow2 by lia.
      destruct (Z.leb_spec 0 k), (Z.ltb_spec k (0 + Z.of_nat 64)); cbn; lia. }
    destruct tc; unfold popcount_64, __popcnt64, __builtin_popcountll;
      rewrite E; reflexivity.
  - destruct (lowest_set_bit_64_nonzero tc (2 ^ k) Hx) as (j & E & Hj & Hset & _).
    rewrite Z.pow2_bits_eqb in Hset by lia.
    apply Z.eqb_eq in Hset. subst j. exact E.
  - apply (is_power_of_2_pow2 k Hk).
Qed.

Lemma single_bit_word_witness :
  popcount_64 MSVC (2 ^ 63) = 1 /\
  lowest_set_bit_64 MSVC (2 ^ 63) = Some 63 /\
  is_power_of_2 (2 ^ 63) = true.
Proof. apply (single_bit_word MSVC 63). lia. Defined.

(** [log2] is the integer logarithm of the standard library on every
    integer: zero on the non-positive ones, the floor of the base-2
    logarithm on the positive ones. *)
Lemma log2_is_Z_log2 (x : Z) : log2 x = Z.log2 x.
Proof.
  destruct (Z_le_gt_dec x 1) as [Hle | Hgt].
  - rewrite log2_step. destruct (Z.leb_spec x 1); [| lia].
    destruct (Z.eq_dec x 1) as [-> | Hne]; [reflexivity |].
    symmetry. apply Z.log2_nonpos. lia.
  - destruct (log2_floor x ltac:(lia)) as (Hnn & Hlo & Hhi).
    symmetry. apply Z.log2_unique; [exact Hnn |].
    unfold Z.succ. lia.
Qed.

(** [log2] is monotone on [int], and exact on the powers of two that fit
    [int]: [log2 (2^k) = k] for [0 <= k <= 30]. *)
Theorem log2_monotone_exact (x y k : Z) :
  (in_range int_t x -> in_range int_t y -> x <= y -> log2 x <= log2 y) /\
  (0 <= k <= 30 -> in_range int_t (2 ^ k) /\ log2 (2 ^ k) = k).
Proof.
  rewrite !log2_is_Z_log2. split.
  - intros _ _. apply Z.log2_le_mono.
  - intros Hk. split; [| apply Z.log2_pow2; lia].
    assert (0 < 2 ^ k) by (apply Z.pow_pos_nonneg; lia).
    assert (2 ^ k <= 2 ^ 30) by (apply Z.pow_le_mono_r; lia).
    unfold in_range. cbn. change (2 ^ 30) with 1073741824 in *. lia.
Qed.

Lemma log2_monotone_exact_witness :
  log2 (-4) <= log2 1000 /\ in_range int_t (2 ^ 20) /\ log2 (2 ^ 20) = 20.
Proof.
  split.
  - apply (log2_monotone_exact (-4) 1000 0);
      unfold in_range; cbn; lia.
  - apply (log2_monotone_exact 0 0 20). lia.
Defined.

(** On a power of two, as recognised by [is_power_of_2], [log2] is the exact
    logarithm and coincides with the index of the lowest set bit on both
    toolchains; the word is to fit [int], the parameter type of [log2]. *)
Theorem log2_of_power_of_2 (tc : Toolchain) (x : Z) :
  0 <= x < 2 ^ 31 -> is_power_of_2 x = true ->
  2 ^ log2 x = x /\ lowest_set_bit_64 tc x = Some (log2 x).
Proof.
  intros Hx31 Hp.
  assert (Hx : 0 <= x < 2 ^ 64)
    by (change (2 ^ 31) with 2147483648 in Hx31;
        change (2 ^ 64) with 18446744073709551616; lia).
  destruct (is_power_of_2_inv x Hx Hp) as (k & Hk & ->).
  rewrite log2_is_Z_log2, Z.log2_pow2 by lia.
  split; [reflexivity |].
  assert (Hw : 0 < 2 ^ k < 2 ^ 64) by lia.
  destruct (lowest_set_bit_64_nonzero tc (2 ^ k) Hw) as (j & E & _ & Hset & _).
  rewrite Z.pow2_bits_eqb in Hset by lia.
  apply Z.eqb_eq in Hset. subst j. exact E.
Qed.

Lemma log2_of_power_of_2_witness :
  2 ^ log2 1024 = 1024 /\ lowest_set_bit_64 GCC 1024 = Some (log2 1024).
Proof.
  apply (log2_of_power_of_2 GCC 1024).
  - change (2 ^ 31) with 2147483648. lia.
  - reflexivity.
Defined.
